(** * Engine-API websocket client: token issuance and the one-shot session

  Shallow embedding of [scripts/connect_via_websockets_engine.py].

  The script builds an HS256 JSON Web Token from a hexadecimal shared
  secret ([make_engine_jwt]), attaches it as a bearer header to one
  websocket handshake, sends one JSON-RPC request and prints the first
  frame that comes back ([main]). The companion script
  [scripts/connect_via_websockets.py] only drives a [web3] subscription
  and is not embedded.

  Python values are represented as follows:
  - [bytes] is [list byte];
  - [str] is [string]; every string the script encodes or decodes is pure
    ASCII (lemmas [b64url_ascii], [iat_json_ascii], [signing_input_ascii]),
    where UTF-8 coding is the identity on code units;
  - [int] is [Z];
  - the [float] returned by [time.time()] is a rational number [Q] (every
    finite float is one);
  - an exception is the [None] of an [option] (token issuance) or an
    [outcome] constructor (the session).

  The standard-library and third-party functions the script calls
  ([bytes.fromhex], [base64.urlsafe_b64encode], [bytes.rstrip],
  [json.dumps], [hashlib.sha256], [hmac.new], [websockets.connect]) are
  modelled from their documented behaviour. *)

From Stdlib Require Import ZArith NArith QArith Qround List Bool Lia.
From Stdlib.Strings Require Import Ascii String Byte.
From Stdlib Require Import DecimalString DecimalZ.
Import ListNotations.

Local Open Scope Z_scope.

(** ** Bytes *)

Module Bytes.

Definition bytes := list byte.

Definition Z_of_byte (b : byte) : Z := Z.of_N (Byte.to_N b).

(** The byte whose value is [z mod 256]. *)
Definition byte_of_Z (z : Z) : byte :=
  byte_of_ascii (ascii_of_N (Z.to_N (z mod 256))).

(** [s.encode()] and [b.decode()] on ASCII data. *)
Definition encode (s : string) : bytes := list_byte_of_string s.
Definition decode (b : bytes) : string := string_of_list_byte b.

Definition is_ascii (b : byte) : bool := Z_of_byte b <? 128.

(** [b.rstrip(chars)] for a one-byte [chars]: drop every trailing
    occurrence of [c]. *)
Fixpoint rstrip (c : byte) (b : bytes) : bytes :=
  match b with
  | [] => []
  | x :: rest =>
      match rstrip c rest with
      | [] => if Byte.eqb x c then [] else [x]
      | r => x :: r
      end
  end.

(** Big-endian serialisation of the low [8 * n] bits of [z]. *)
Fixpoint be_bytes (n : nat) (z : Z) : bytes :=
  match n with
  | O => []
  | S k => be_bytes k (Z.shiftr z 8) ++ [byte_of_Z z]
  end.

(** Big-endian value of a byte string. *)
Definition be_value (b : bytes) : Z :=
  fold_left (fun acc x => Z.lor (Z.shiftl acc 8) (Z_of_byte x)) b 0.

(** Consecutive chunks of [n] bytes; the last one may be shorter. *)
Fixpoint chunks_fuel (fuel n : nat) (b : bytes) : list bytes :=
  match fuel, b with
  | _, [] => []
  | O, _ => []
  | S f, _ => firstn n b :: chunks_fuel f n (skipn n b)
  end.

Definition chunks (n : nat) (b : bytes) : list bytes :=
  chunks_fuel (List.length b) n b.

(** *** [bytes.fromhex] *)

Definition hex_digit (c : ascii) : option Z :=
  let n := Z.of_N (N_of_ascii c) in
  if (48 <=? n) && (n <=? 57) then Some (n - 48)
  else if (97 <=? n) && (n <=? 102) then Some (n - 87)
  else if (65 <=? n) && (n <=? 70) then Some (n - 55)
  else None.

(** [Py_ISSPACE]: space, and the control characters 9 to 13. *)
Definition is_space (c : ascii) : bool :=
  let n := Z.of_N (N_of_ascii c) in
  (n =? 32) || ((9 <=? n) && (n <=? 13)).

(** ASCII whitespace is skipped between byte pairs, never inside one; any
    other character, or a dangling single digit, raises [ValueError]
    ([None]). *)
Fixpoint fromhex_chars (s : list ascii) : option bytes :=
  match s with
  | [] => Some []
  | c :: rest =>
      if is_space c then fromhex_chars rest
      else
        match hex_digit c, rest with
        | Some top, d :: rest' =>
            match hex_digit d, fromhex_chars rest' with
            | Some bot, Some tl => Some (byte_of_Z (16 * top + bot) :: tl)
            | _, _ => None
            end
        | _, _ => None
        end
  end.

Definition fromhex (s : string) : option bytes :=
  fromhex_chars (list_ascii_of_string s).

End Bytes.

(** ** [hashlib.sha256] (FIPS 180-4) *)

Module SHA256.
Import Bytes.

Definition wrap (x : Z) : Z := x mod 2 ^ 32.
Definition add32 (x y : Z) : Z := wrap (x + y).
Definition rotr (n x : Z) : Z :=
  Z.lor (Z.shiftr x n) (wrap (Z.shiftl x (32 - n))).
Definition shr (n x : Z) : Z := Z.shiftr x n.
Definition not32 (x : Z) : Z := Z.lxor x (2 ^ 32 - 1).

Definition Ch (x y z : Z) : Z := Z.lxor (Z.land x y) (Z.land (not32 x) z).
Definition Maj (x y z : Z) : Z :=
  Z.lxor (Z.lxor (Z.land x y) (Z.land x z)) (Z.land y z).
Definition Sigma0 (x : Z) : Z := Z.lxor (Z.lxor (rotr 2 x) (rotr 13 x)) (rotr 22 x).
Definition Sigma1 (x : Z) : Z := Z.lxor (Z.lxor (rotr 6 x) (rotr 11 x)) (rotr 25 x).
Definition sigma0 (x : Z) : Z := Z.lxor (Z.lxor (rotr 7 x) (rotr 18 x)) (shr 3 x).
Definition sigma1 (x : Z) : Z := Z.lxor (Z.lxor (rotr 17 x) (rotr 19 x)) (shr 10 x).

(** The round constants and the initial hash value are derived from the
    primes, as the standard defines them. *)

Definition is_prime (n : Z) : bool :=
  (1 <? n)
  && forallb (fun d => negb (n mod d =? 0) || (n <=? d))
       (map Z.of_nat (seq 2 (Z.to_nat (Z.sqrt n)))).

(** The primes below 312, of which there are sixty-four. *)
Definition primes : list Z :=
  filter is_prime (map Z.of_nat (seq 2 310)).

(** The largest [r] below [2 ^ bits] whose cube does not exceed [n], found
    one bit at a time from the top. *)
Fixpoint cube_root_bits (bits : nat) (n r : Z) : Z :=
  match bits with
  | O => r
  | S b =>
      let r' := r + 2 ^ Z.of_nat b in
      cube_root_bits b n (if r' * r' * r' <=? n then r' else r)
  end.

Definition cube_root (n : Z) : Z := cube_root_bits 40 n 0.

(** The first thirty-two bits of the fractional part of the cube root of
    each of the first sixty-four primes. *)
Definition K : list Z :=
  Eval vm_compute in
    map (fun p => cube_root (p * 2 ^ 96) mod 2 ^ 32) primes.

(** The eight working variables / chaining words. *)
Record state := State {
  sa : Z; sb : Z; sc : Z; sd : Z; se : Z; sf : Z; sg : Z; sh : Z }.

(** The first thirty-two bits of the fractional part of the square root of
    the [i]-th prime. *)
Definition sqrt_frac (i : nat) : Z :=
  Z.sqrt (nth i primes 0 * 2 ^ 64) mod 2 ^ 32.

Definition H0 : state :=
  Eval vm_compute in
    State (sqrt_frac 0) (sqrt_frac 1) (sqrt_frac 2) (sqrt_frac 3)
          (sqrt_frac 4) (sqrt_frac 5) (sqrt_frac 6) (sqrt_frac 7).

(** Message padding: a one bit, zeros up to 56 modulo 64, then the bit
    length as a 64-bit big-endian integer. *)
Definition pad (msg : bytes) : bytes :=
  let len := Z.of_nat (List.length msg) in
  msg ++ [byte_of_Z 0x80]
      ++ repeat (byte_of_Z 0) (Z.to_nat ((55 - len) mod 64))
      ++ be_bytes 8 (8 * len).

(** The sixteen big-endian words of a 64-byte block. *)
Definition block_words (block : bytes) : list Z :=
  map be_value (chunks 4 block).

(** Message schedule: [n] more words appended to [w]. *)
Fixpoint extend (n : nat) (w : list Z) : list Z :=
  match n with
  | O => w
  | S k =>
      let t := List.length w in
      let at_ i := nth (t - i) w 0 in
      extend k (w ++ [add32 (add32 (sigma1 (at_ 2%nat)) (at_ 7%nat))
                            (add32 (sigma0 (at_ 15%nat)) (at_ 16%nat))])
  end.

Definition schedule (block : bytes) : list Z := extend 48 (block_words block).

Definition round (s : state) (kw : Z * Z) : state :=
  let (k, w) := kw in
  let t1 := add32 (add32 (add32 (sh s) (Sigma1 (se s)))
                         (add32 (Ch (se s) (sf s) (sg s)) k)) w in
  let t2 := add32 (Sigma0 (sa s)) (Maj (sa s) (sb s) (sc s)) in
  State (add32 t1 t2) (sa s) (sb s) (sc s) (add32 (sd s) t1) (se s) (sf s) (sg s).

Definition compress (h : state) (block : bytes) : state :=
  let s := fold_left round (combine K (schedule block)) h in
  State (add32 (sa h) (sa s)) (add32 (sb h) (sb s))
        (add32 (sc h) (sc s)) (add32 (sd h) (sd s))
        (add32 (se h) (se s)) (add32 (sf h) (sf s))
        (add32 (sg h) (sg s)) (add32 (sh h) (sh s)).

Definition digest_of (s : state) : bytes :=
  be_bytes 4 (sa s) ++ be_bytes 4 (sb s) ++ be_bytes 4 (sc s) ++ be_bytes 4 (sd s)
  ++ be_bytes 4 (se s) ++ be_bytes 4 (sf s) ++ be_bytes 4 (sg s) ++ be_bytes 4 (sh s).

Definition sha256 (msg : bytes) : bytes :=
  digest_of (fold_left compress (chunks 64 (pad msg)) H0).

Definition block_size : nat := 64.
Definition digest_size : nat := 32.

End SHA256.

(** ** [hmac.new(key, msg, digestmod=hashlib.sha256).digest()] (RFC 2104) *)

Module HMAC.
Import Bytes.

Definition xor_with (c : Z) (b : bytes) : bytes :=
  map (fun x => byte_of_Z (Z.lxor (Z_of_byte x) c)) b.

(** A key longer than the block is hashed first; the key is then padded
    with zero bytes to the block size. *)
Definition block_key (key : bytes) : bytes :=
  let k := if (SHA256.block_size <? List.length key)%nat
           then SHA256.sha256 key else key in
  k ++ repeat (byte_of_Z 0) (SHA256.block_size - List.length k).

Definition hmac_sha256 (key msg : bytes) : bytes :=
  let k := block_key key in
  SHA256.sha256 (xor_with 0x5c k ++ SHA256.sha256 (xor_with 0x36 k ++ msg)).

End HMAC.

(** ** [base64.urlsafe_b64encode] (RFC 4648) *)

Module Base64.
Import Bytes.

(** The standard alphabet, [table_b2a_base64] of [binascii]. *)
Definition alphabet : bytes :=
  encode "ABCDEFGHIJKLMNOPQRSTUVWXYZabcdefghijklmnopqrstuvwxyz0123456789+/"%string.

Definition pad_byte : byte := "="%byte.

Definition table (i : Z) : byte := nth (Z.to_nat i) alphabet pad_byte.

(** The 6-bit groups of one, two and three input bytes. A short final
    group is filled with zero bits on the right. *)
Definition sextets1 (x : byte) : list Z :=
  let n := Z_of_byte x in
  [ Z.shiftr n 2; Z.shiftl (Z.land n 3) 4 ].

Definition sextets2 (x y : byte) : list Z :=
  let n := be_value [x; y] in
  [ Z.shiftr n 10; Z.land (Z.shiftr n 4) 63; Z.shiftl (Z.land n 15) 2 ].

Definition sextets3 (x y z : byte) : list Z :=
  let n := be_value [x; y; z] in
  [ Z.shiftr n 18; Z.land (Z.shiftr n 12) 63;
    Z.land (Z.shiftr n 6) 63; Z.land n 63 ].

(** [base64.b64encode]: four characters for every three bytes, the last
    group padded with [=]. *)
Fixpoint b64encode (data : bytes) : bytes :=
  match data with
  | [] => []
  | [x] => map table (sextets1 x) ++ [pad_byte; pad_byte]
  | [x; y] => map table (sextets2 x y) ++ [pad_byte]
  | x :: y :: z :: rest => map table (sextets3 x y z) ++ b64encode rest
  end.

(** [_urlsafe_encode_translation]: [+] becomes [-] and [/] becomes [_]. *)
Definition urlsafe (b : byte) : byte :=
  if Byte.eqb b "+"%byte then "-"%byte
  else if Byte.eqb b "/"%byte then "_"%byte
  else b.

Definition urlsafe_b64encode (data : bytes) : bytes :=
  map urlsafe (b64encode data).

(** *** The inverse direction

    [base64.urlsafe_b64decode] on padded input over the URL-safe
    alphabet: groups of four characters, the last one possibly ending in
    one or two [=]. Anything else is an error ([None]). *)

Definition sextet_of (c : byte) : option Z :=
  let n := Z_of_byte c in
  if (65 <=? n) && (n <=? 90) then Some (n - 65)
  else if (97 <=? n) && (n <=? 122) then Some (n - 71)
  else if (48 <=? n) && (n <=? 57) then Some (n + 4)
  else if n =? 45 then Some 62
  else if n =? 95 then Some 63
  else None.

Definition join6 (s : list Z) : Z :=
  fold_left (fun acc x => Z.lor (Z.shiftl acc 6) x) s 0.

Fixpoint urlsafe_b64decode_fuel (fuel : nat) (s : bytes) : option bytes :=
  match fuel, s with
  | _, [] => Some []
  | S f, a :: b :: c :: d :: rest =>
      match sextet_of a, sextet_of b with
      | Some sa, Some sb =>
          if Byte.eqb d pad_byte then
            match rest with
            | [] =>
                if Byte.eqb c pad_byte
                then Some (be_bytes 1 (Z.shiftr (join6 [sa; sb]) 4))
                else
                  match sextet_of c with
                  | Some sc => Some (be_bytes 2 (Z.shiftr (join6 [sa; sb; sc]) 2))
                  | None => None
                  end
            | _ => None
            end
          else
            match sextet_of c, sextet_of d, urlsafe_b64decode_fuel f rest with
            | Some sc, Some sd, Some tl =>
                Some (be_bytes 3 (join6 [sa; sb; sc; sd]) ++ tl)
            | _, _, _ => None
            end
      | _, _ => None
      end
  | _, _ => None
  end.

Definition urlsafe_b64decode (s : bytes) : option bytes :=
  urlsafe_b64decode_fuel (List.length s) s.

(** Restoring the padding that was stripped:
    [s + b"=" * (-len(s) % 4)]. *)
Definition restore_padding (s : bytes) : bytes :=
  s ++ repeat pad_byte (Z.to_nat ((- Z.of_nat (List.length s)) mod 4)).

(** Membership in the URL-safe alphabet: letters, digits, [-] and [_]. *)
Definition is_urlsafe_char (c : byte) : bool :=
  match sextet_of c with Some _ => true | None => false end.

(** The encoder's output once the padding is stripped. *)
Definition unpadded (data : bytes) : bytes :=
  rstrip pad_byte (urlsafe_b64encode data).

(** The characters of a list of 6-bit groups. *)
Definition chars (l : list Z) : bytes := map urlsafe (map table l).

Definition in_range (s : Z) : Prop := 0 <= s < 64.

Definition urlsafe_alphabet : bytes :=
  encode "ABCDEFGHIJKLMNOPQRSTUVWXYZabcdefghijklmnopqrstuvwxyz0123456789-_"%string.

End Base64.

(** ** [json.dumps] on the values the script serialises *)

Module Json.
Local Open Scope string_scope.

(** A [dict] is an association list: Python dictionaries keep insertion
    order, and [dumps] writes the items in that order. *)
#[warnings="-register-all"]
Inductive json :=
| JInt (z : Z)
| JStr (s : string)
| JList (l : list json)
| JDict (items : list (string * json)).

Definition quote : string := String "034" "".
Definition backslash : string := String "092" "".

Definition hex_char (n : Z) : ascii :=
  ascii_of_N (Z.to_N (if (n <? 10)%Z then 48 + n else 87 + n)).

(** [ensure_ascii=True]: everything outside the printable ASCII range is
    escaped. *)
Definition escape_char (c : ascii) : string :=
  let n := Z.of_N (N_of_ascii c) in
  if (n =? 34)%Z then backslash ++ quote
  else if (n =? 92)%Z then backslash ++ backslash
  else if (n =? 10)%Z then backslash ++ "n"
  else if (n =? 13)%Z then backslash ++ "r"
  else if (n =? 9)%Z then backslash ++ "t"
  else if (n =? 8)%Z then backslash ++ "b"
  else if (n =? 12)%Z then backslash ++ "f"
  else if ((n <? 32) || (126 <? n))%Z
  then backslash ++ "u00"
       ++ String (hex_char (n / 16)) (String (hex_char (n mod 16)) "")
  else String c "".

Fixpoint escape (s : string) : string :=
  match s with
  | EmptyString => ""
  | String c rest => escape_char c ++ escape rest
  end.

Definition dumps_str (s : string) : string := quote ++ escape s ++ quote.

(** [str(int)]: decimal digits, with a leading [-] for negatives. *)
Definition dumps_int (z : Z) : string := NilEmpty.string_of_int (Z.to_int z).

(** [json.dumps(obj, separators=(item_sep, key_sep))]. *)
Fixpoint dumps (item_sep key_sep : string) (j : json) : string :=
  match j with
  | JInt z => dumps_int z
  | JStr s => dumps_str s
  | JList l => "[" ++ concat item_sep (map (dumps item_sep key_sep) l) ++ "]"
  | JDict items =>
      "{" ++ concat item_sep
               (map (fun kv => dumps_str (fst kv) ++ key_sep
                               ++ dumps item_sep key_sep (snd kv)) items)
          ++ "}"
  end.

(** The default separators of [json.dumps]. *)
Definition dumps_default : json -> string := dumps ", " ": ".

(** [separators=(",", ":")]. *)
Definition dumps_compact : json -> string := dumps "," ":".

End Json.

(** ** The token issuer *)

Module Jwt.
Import Bytes Json.
Local Open Scope string_scope.

(** [int(x)] on a float: truncation towards zero. *)
Definition int_of_float (x : Q) : Z := Z.quot (Qnum x) (Z.pos (Qden x)).

(** [_b64url] *)
Definition _b64url (data : bytes) : string :=
  decode (rstrip Base64.pad_byte (Base64.urlsafe_b64encode data)).

(** The bytes literal [b'{"alg":"HS256","typ":"JWT"}']. *)
Definition header_literal : bytes :=
  encode ("{" ++ quote ++ "alg" ++ quote ++ ":" ++ quote ++ "HS256" ++ quote
           ++ "," ++ quote ++ "typ" ++ quote ++ ":" ++ quote ++ "JWT" ++ quote
           ++ "}").

Definition header : string := _b64url header_literal.

(** [_b64url(json.dumps({"iat": int(time.time())},
                        separators=(",",":")).encode())]
    where [now] is the value [time.time()] returns. *)
Definition payload (now : Q) : string :=
  _b64url (encode (dumps_compact (JDict [("iat", JInt (int_of_float now))]))).

Definition signature (secret : bytes) (signing_input : bytes) : string :=
  _b64url (HMAC.hmac_sha256 secret signing_input).

(** [make_engine_jwt]; [None] is the [ValueError] of [bytes.fromhex]. *)
Definition make_engine_jwt (secret_hex : string) (now : Q) : option string :=
  match fromhex secret_hex with
  | None => None
  | Some secret =>
      let header := header in
      let payload := payload now in
      let signing_input := encode (header ++ "." ++ payload) in
      let sig := signature secret signing_input in
      Some (header ++ "." ++ payload ++ "." ++ sig)
  end.

(** The two JSON objects of a token. *)
Definition header_json : json :=
  JDict [("alg", JStr "HS256"); ("typ", JStr "JWT")].

Definition iat_json (z : Z) : string :=
  dumps_compact (JDict [("iat", JInt z)]).

End Jwt.

(** ** The script: module state, the websocket session and [main] *)

Module Script.
Import Bytes Json Jwt.
Local Open Scope string_scope.

(** *** Observable events

    Everything the script does to the outside is appended to a trace, in
    the order in which it happens. *)

Definition headers := list (string * string).

(** What the two calls of [print] are given after their label: the request
    that was sent, and the reply that was received. *)
Inductive printed :=
| Sent (req : json)
| Got (reply : string).

Inductive event :=
| Issue (now : Q) (token : string)
    (* [make_engine_jwt] returned [token] at clock reading [now] *)
| Connect (url : string) (additional_headers : headers) (max_size : option Z)
    (* opening handshake *)
| Send (msg : string)
| Recv (frame : string)
| Print (p : printed)
| Close.

Inductive exn :=
| ValueError          (* [bytes.fromhex] on malformed input *)
| InvalidHandshake    (* the peer rejected the opening handshake *)
| PayloadTooBig.      (* an incoming message exceeded [max_size] *)

(** The outside world: what has happened so far, the frames the peer is
    going to send, in order, and the peer's verdict on a handshake. *)
Record world := World {
  trace : list event;
  inbox : list string;
  accepts : headers -> bool }.

Definition log (e : event) (w : world) : world :=
  World (trace w ++ [e]) (inbox w) (accepts w).

(** An action returns, raises, or waits for ever. *)
Inductive outcome (A : Type) :=
| Returned (a : A) (w : world)
| Raised (e : exn) (w : world)
| Blocked (w : world).
Arguments Returned {A}.
Arguments Raised {A}.
Arguments Blocked {A}.

Definition final {A} (o : outcome A) : world :=
  match o with Returned _ w | Raised _ w | Blocked w => w end.

Definition M (A : Type) : Type := world -> outcome A.

Definition ret {A} (a : A) : M A := fun w => Returned a w.

Definition bind {A B} (m : M A) (k : A -> M B) : M B :=
  fun w =>
    match m w with
    | Returned a w' => k a w'
    | Raised e w' => Raised e w'
    | Blocked w' => Blocked w'
    end.

Notation "x <- m ;; k" := (bind m (fun x => k))
  (at level 61, m at next level, right associativity).
Notation "m ;; k" := (bind m (fun _ => k))
  (at level 61, right associativity).

Definition emit (e : event) : M unit := fun w => Returned tt (log e w).

(** *** The [websockets] client *)

Record connection := Connection { conn_max_size : option Z }.

(** [connect(url, additional_headers=..., max_size=...)]: the headers go
    out with the opening handshake. *)
Definition connect (url : string) (additional_headers : headers)
    (max_size : option Z) : M connection :=
  fun w =>
    let w' := log (Connect url additional_headers max_size) w in
    if accepts w additional_headers
    then Returned (Connection max_size) w'
    else Raised InvalidHandshake w'.

(** The default of [max_size] is one mebibyte; [None] disables the limit. *)
Definition default_max_size : option Z := Some (2 ^ 20).

Definition too_big (limit : option Z) (frame : string) : bool :=
  match limit with
  | None => false
  | Some m => (m <? Z.of_nat (String.length frame))%Z
  end.

Definition send (ws : connection) (msg : string) : M unit := emit (Send msg).

(** [await ws.recv()]: the next frame of the peer, unless it exceeds the
    connection's [max_size]; with nothing to read the caller waits. *)
Definition recv (ws : connection) : M string :=
  fun w =>
    match inbox w with
    | [] => Blocked w
    | frame :: rest =>
        let w' := World (trace w) rest (accepts w) in
        if too_big (conn_max_size ws) frame
        then Raised PayloadTooBig w'
        else Returned frame (log (Recv frame) w')
    end.

(** [async with opening as ws: body]: the connection is closed when the
    body returns or raises. *)
Definition async_with {A} (opening : M connection) (body : connection -> M A)
    : M A :=
  fun w =>
    match opening w with
    | Returned ws w1 =>
        match body ws w1 with
        | Returned a w2 => Returned a (log Close w2)
        | Raised e w2 => Raised e (log Close w2)
        | Blocked w2 => Blocked w2
        end
    | Raised e w1 => Raised e w1
    | Blocked w1 => Blocked w1
    end.

Definition print (p : printed) : M unit := emit (Print p).

(** *** Module level *)

(** [str.isspace] on the code points below 256. *)
Definition py_isspace (c : ascii) : bool :=
  let n := Z.of_N (N_of_ascii c) in
  ((9 <=? n) && (n <=? 13) || (28 <=? n) && (n <=? 32)
   || (n =? 133) || (n =? 160))%Z.

Fixpoint lstrip (s : string) : string :=
  match s with
  | EmptyString => ""
  | String c rest => if py_isspace c then lstrip rest else s
  end.

Fixpoint rstrip (s : string) : string :=
  match s with
  | EmptyString => ""
  | String c rest =>
      match rstrip rest with
      | EmptyString => if py_isspace c then "" else String c ""
      | r => String c r
      end
  end.

(** [s.strip()] *)
Definition strip (s : string) : string := rstrip (lstrip s).

Record globals := Globals {
  JWT_SECRET : string;
  WS_URL : string;
  JWT : string }.

(** A call of [make_engine_jwt] when the clock reads [now]. *)
Definition issue (secret_hex : string) (now : Q) : M string :=
  fun w =>
    match make_engine_jwt secret_hex now with
    | None => Raised ValueError w
    | Some token => Returned token (log (Issue now token) w)
    end.

(** The module body up to [main]: [file_text] is what
    [pathlib.Path("local-deployment/jwtsecret").read_text()] returns and
    [now] what the clock reads when [JWT] is computed. *)
Definition load (file_text : string) (now : Q) : M globals :=
  let JWT_SECRET := strip file_text in
  let WS_URL := "ws://127.0.0.1:8551" in
  JWT <- issue JWT_SECRET now ;;
  ret (Globals JWT_SECRET WS_URL JWT).

(** The request of the example call. *)
Definition req : json :=
  JDict [ ("jsonrpc", JStr "2.0"); ("id", JInt 1);
          ("method", JStr "engine_exchangeCapabilities");
          ("params", JList [JList []]) ].

(** [main] *)
Definition main (g : globals) : M unit :=
  let headers := [("Authorization", "Bearer " ++ JWT g)] in
  async_with (connect (WS_URL g) headers None) (fun ws =>
    send ws (dumps_default req) ;;
    print (Sent req) ;;
    reply <- recv ws ;;
    print (Got reply)).

(** The whole script: module body, then [asyncio.run(main())]. *)
Definition script (file_text : string) (now : Q) : M unit :=
  g <- load file_text now ;;
  main g.

(** [main] called [n] times in the loaded module, one connection attempt
    after the other. *)
Fixpoint reconnect (n : nat) (g : globals) : M unit :=
  match n with
  | O => ret tt
  | S k => main g ;; reconnect k g
  end.

(** *** Reading a trace *)

Definition issued (t : list event) : list string :=
  flat_map (fun e => match e with Issue _ tok => [tok] | _ => [] end) t.

Definition handshakes (t : list event) : list headers :=
  flat_map (fun e => match e with Connect _ h _ => [h] | _ => [] end) t.

Definition sent (t : list event) : list string :=
  flat_map (fun e => match e with Send m => [m] | _ => [] end) t.

Definition received (t : list event) : list string :=
  flat_map (fun e => match e with Recv f => [f] | _ => [] end) t.

(** The frame the caller of [recv] completed with, as [main] prints it. *)
Definition replies (t : list event) : list string :=
  flat_map (fun e => match e with Print (Got r) => [r] | _ => [] end) t.

(** *** Auxiliary definitions *)

(** The header dictionary [main] builds. *)
Definition authorization (g : globals) : headers :=
  [("Authorization", "Bearer " ++ JWT g)].

(** The events one call of [main] adds, given the peer's verdict on the
    handshake and the frames waiting. *)
Definition main_trace (g : globals) (accepted : bool) (frames : list string)
    : list event :=
  Connect (WS_URL g) (authorization g) None
  :: (if accepted
      then Send (dumps_default req) :: Print (Sent req)
           :: match frames with
              | [] => []
              | frame :: _ => [Recv frame; Print (Got frame); Close]
              end
      else []).

(** A response frame [{"id":id,"result":result}]. *)
Definition response (id : Z) (result : json) : string :=
  dumps_compact (JDict [("id", JInt id); ("result", result)]).

(** A peer that accepts every handshake and sends [frames]. *)
Definition sample_world (frames : list string) : world :=
  World [] frames (fun _ => true).

(** The module state after loading with the secret [00ff] when the clock
    reads 1700000000. *)
Definition sample_globals : globals :=
  Eval vm_compute in
    match load "00ff" (1700000000 # 1) (sample_world []) with
    | Returned g _ => g
    | _ => Globals "" "" ""
    end.

(** A token issued with the same secret a second and a half later. *)
Definition sample_token_later : string :=
  Eval vm_compute in
    match make_engine_jwt "00ff" (17000000015 # 10) with
    | Some token => token
    | None => ""
    end.

End Script.

(** ** Vocabulary of the properties *)

Module Props.
Import Bytes Json Jwt.
Local Open Scope string_scope.

(** [s.split(sep)] for a one-character separator. *)
Fixpoint split_on (sep : ascii) (s : string) : list string :=
  match s with
  | EmptyString => [""]
  | String c rest =>
      if Ascii.eqb c sep then "" :: split_on sep rest
      else
        match split_on sep rest with
        | [] => [String c ""]
        | first :: others => String c first :: others
        end
  end.

Fixpoint count_char (c : ascii) (s : string) : nat :=
  match s with
  | EmptyString => O
  | String x rest => ((if Ascii.eqb x c then 1 else 0) + count_char c rest)%nat
  end.

(** [needle in hay] *)
Fixpoint contains (needle hay : string) : bool :=
  prefix needle hay
  || match hay with
     | EmptyString => false
     | String _ rest => contains needle rest
     end.

(** A segment is unpadded base64url text: characters of the URL-safe
    alphabet only, hence neither [=] nor [.]. *)
Definition is_b64url_text (s : string) : Prop :=
  Forall (fun c => Base64.is_urlsafe_char c = true) (encode s).

(** Decoding a segment: restore the padding, then decode. *)
Definition b64url_decode (s : string) : option bytes :=
  Base64.urlsafe_b64decode (Base64.restore_padding (encode s)).

(** Well-formed hexadecimal text: pairs of hex digits, with optional
    ASCII whitespace around the pairs. *)
Inductive hex_wf : list ascii -> Prop :=
| hex_wf_nil : hex_wf []
| hex_wf_space c s : is_space c = true -> hex_wf s -> hex_wf (c :: s)
| hex_wf_pair a b s :
    hex_digit a <> None -> hex_digit b <> None -> hex_wf s ->
    hex_wf (a :: b :: s).

Definition well_formed_hex (s : string) : Prop :=
  hex_wf (list_ascii_of_string s).

(** Verification of a token under a secret, by an independent
    recomputation: split at the dots, recompute the HMAC over
    [header "." payload], compare with the decoded signature. *)
Definition bytes_eqb (a b : bytes) : bool :=
  if list_eq_dec Byte.byte_eq_dec a b then true else false.

Definition verify (secret : bytes) (token : string) : bool :=
  match split_on "." token with
  | [h; p; s] =>
      match b64url_decode s with
      | Some sig => bytes_eqb sig (HMAC.hmac_sha256 secret (encode (h ++ "." ++ p)))
      | None => false
      end
  | _ => false
  end.

(** The issue-time claim of a token: the decoded payload segment. *)
Definition payload_of (token : string) : option bytes :=
  match split_on "." token with
  | [_; p; _] => b64url_decode p
  | _ => None
  end.

Definition free_of (sep : ascii) (s : string) : Prop := count_char sep s = O.

(** Text whose UTF-8 encoding is one byte per character. *)
Definition ascii_text (s : string) : Prop :=
  Forall (fun b => is_ascii b = true) (encode s).

(** The hexadecimal digits [a] to [f] in upper case; every other character
    is left alone. *)
Definition hex_upper_char (c : ascii) : ascii :=
  let n := Z.of_N (N_of_ascii c) in
  if ((97 <=? n) && (n <=? 102))%Z then ascii_of_N (Z.to_N (n - 32)) else c.

Fixpoint hex_upper (s : string) : string :=
  match s with
  | EmptyString => ""
  | String c rest => String (hex_upper_char c) (hex_upper rest)
  end.

(** What a string is made of. *)
Definition all_chars (P : ascii -> bool) (s : string) : Prop :=
  Forall (fun c => P c = true) (list_ascii_of_string s).

Definition is_hex_digit (c : ascii) : bool :=
  match hex_digit c with Some _ => true | None => false end.

(** The characters of a token: the URL-safe alphabet and the dot. *)
Definition is_token_char (c : ascii) : bool :=
  Base64.is_urlsafe_char (byte_of_ascii c) || Ascii.eqb c ".".

End Props.

(** * Properties *)

(** ** Bytes and bit arithmetic *)

Module BytesFacts.
Import Bytes.

Lemma Z_of_byte_range (b : byte) : 0 <= Z_of_byte b < 256.
Proof.
  unfold Z_of_byte. pose proof (Byte.to_N_bounded b). lia.
Qed.

Lemma Z_of_byte_of_Z (z : Z) : Z_of_byte (byte_of_Z z) = z mod 256.
Proof.
  unfold Z_of_byte, byte_of_Z.
  assert (Hr : 0 <= z mod 256 < 256) by (apply Z.mod_pos_bound; lia).
  set (a := ascii_of_N (Z.to_N (z mod 256))).
  pose proof (byte_of_ascii_via_N a) as H. symmetry in H.
  apply Byte.to_of_N in H. rewrite H. subst a.
  rewrite N_ascii_embedding by lia. lia.
Qed.

Lemma byte_of_Z_of_byte (b : byte) : byte_of_Z (Z_of_byte b) = b.
Proof.
  unfold byte_of_Z, Z_of_byte.
  pose proof (Byte.to_N_bounded b).
  rewrite Z.mod_small by lia. rewrite N2Z.id.
  rewrite <- ascii_of_byte_via_N. apply byte_of_ascii_of_byte.
Qed.

Lemma byte_of_Z_mod (z : Z) (b : byte) :
  z mod 256 = Z_of_byte b -> byte_of_Z z = b.
Proof.
  intros H. rewrite <- (byte_of_Z_of_byte b), <- H.
  unfold byte_of_Z. now rewrite Z.mod_mod by lia.
Qed.

Lemma Z_of_byte_inj (a b : byte) : Z_of_byte a = Z_of_byte b -> a = b.
Proof.
  intros H. rewrite <- (byte_of_Z_of_byte a), <- (byte_of_Z_of_byte b).
  now rewrite H.
Qed.

(** Or-ing a value below [2^k] into a left shift by [k] adds it. *)
Lemma lor_shiftl_add (v x k : Z) :
  0 <= k -> 0 <= x < 2 ^ k -> Z.lor (Z.shiftl v k) x = v * 2 ^ k + x.
Proof.
  intros Hk Hx.
  assert (Hd : Z.land (Z.shiftl v k) x = 0).
  { apply Z.bits_inj'. intros n Hn.
    rewrite Z.land_spec, Z.bits_0.
    destruct (Z.lt_ge_cases n k) as [Hlt | Hge].
    - rewrite Z.shiftl_spec_low by assumption. reflexivity.
    - rewrite <- (Z.mod_small x (2 ^ k)) by assumption.
      rewrite Z.mod_pow2_bits_high by lia. apply andb_false_r. }
  rewrite <- Z.lxor_lor by assumption.
  rewrite <- Z.add_nocarry_lxor by assumption.
  now rewrite Z.shiftl_mul_pow2.
Qed.

Lemma land_mask (a k : Z) : 0 <= k -> Z.land a (2 ^ k - 1) = a mod 2 ^ k.
Proof.
  intros Hk. rewrite <- Z.land_ones by assumption.
  f_equal. rewrite Z.ones_equiv. lia.
Qed.

Lemma length_be_bytes (n : nat) (z : Z) : List.length (be_bytes n z) = n.
Proof.
  revert z. induction n as [| n IH]; intros z; simpl.
  - reflexivity.
  - rewrite length_app, IH. simpl. lia.
Qed.

Lemma rstrip_cons_keep (c x : byte) (b : bytes) :
  x <> c -> rstrip c (x :: b) = x :: rstrip c b.
Proof.
  intros Hx. simpl. destruct (rstrip c b).
  - destruct (Byte.eqb x c) eqn:E; [| reflexivity].
    apply Byte.byte_dec_bl in E. contradiction.
  - reflexivity.
Qed.

Lemma rstrip_app_keep (c : byte) (l b : bytes) :
  Forall (fun x => x <> c) l -> rstrip c (l ++ b) = l ++ rstrip c b.
Proof.
  induction 1 as [| x l Hx _ IH]; simpl app.
  - reflexivity.
  - rewrite rstrip_cons_keep by assumption. now rewrite IH.
Qed.

Lemma rstrip_all (c : byte) (n : nat) : rstrip c (repeat c n) = [].
Proof.
  induction n as [| n IH]; simpl.
  - reflexivity.
  - rewrite IH. now rewrite Byte.byte_dec_lb by reflexivity.
Qed.

End BytesFacts.

(** ** Base64 *)

Module Base64Facts.
Import Bytes BytesFacts Base64.

(** Induction on byte strings three bytes at a time. *)
Lemma bytes_ind3 (P : bytes -> Prop) :
  P [] -> (forall x, P [x]) -> (forall x y, P [x; y]) ->
  (forall x y z rest, P rest -> P (x :: y :: z :: rest)) ->
  forall b, P b.
Proof.
  intros H0 H1 H2 H3.
  fix IH 1. intros [| x [| y [| z rest]]].
  - exact H0.
  - apply H1.
  - apply H2.
  - apply H3, IH.
Qed.

Lemma sextet_of_table (s : Z) :
  in_range s -> sextet_of (urlsafe (table s)) = Some s.
Proof.
  unfold in_range. intros Hs.
  replace s with (Z.of_nat (Z.to_nat s)) by lia.
  assert (Hn : (Z.to_nat s < 64)%nat) by lia.
  generalize dependent (Z.to_nat s). clear. intros n Hn.
  do 64 (destruct n as [| n]; [vm_compute; reflexivity |]).
  lia.
Qed.

Lemma urlsafe_char_not_pad (c : byte) :
  is_urlsafe_char c = true -> c <> pad_byte.
Proof. intros H ->. discriminate H. Qed.

Lemma urlsafe_char_not_dot (c : byte) :
  is_urlsafe_char c = true -> c <> "."%byte.
Proof. intros H ->. discriminate H. Qed.

Lemma table_urlsafe (l : list Z) :
  Forall in_range l ->
  Forall (fun c => is_urlsafe_char c = true) (map urlsafe (map table l)).
Proof.
  induction 1 as [| s l Hs _ IH]; simpl; constructor; [| exact IH].
  unfold is_urlsafe_char. now rewrite sextet_of_table.
Qed.

Lemma be_value_snoc (b : bytes) (x : byte) :
  be_value (b ++ [x]) = be_value b * 256 + Z_of_byte x.
Proof.
  unfold be_value. rewrite fold_left_app. simpl.
  apply (lor_shiftl_add _ _ 8); [lia |]. apply Z_of_byte_range.
Qed.

Lemma be_value_1 x : be_value [x] = Z_of_byte x.
Proof. apply (be_value_snoc [] x). Qed.

Lemma be_value_2 x y : be_value [x; y] = 256 * Z_of_byte x + Z_of_byte y.
Proof.
  change [x; y] with ([x] ++ [y]). rewrite be_value_snoc, be_value_1. lia.
Qed.

Lemma be_value_3 x y z :
  be_value [x; y; z] = 65536 * Z_of_byte x + 256 * Z_of_byte y + Z_of_byte z.
Proof.
  change [x; y; z] with ([x; y] ++ [z]). rewrite be_value_snoc, be_value_2.
  lia.
Qed.

Lemma sextets1_eq x :
  sextets1 x = [ Z_of_byte x / 4; Z_of_byte x mod 4 * 16 ].
Proof.
  unfold sextets1.
  change 3 with (2 ^ 2 - 1).
  rewrite land_mask, Z.shiftr_div_pow2, Z.shiftl_mul_pow2 by lia.
  reflexivity.
Qed.

Lemma sextets2_eq x y :
  let n := 256 * Z_of_byte x + Z_of_byte y in
  sextets2 x y = [ n / 1024; n / 16 mod 64; n mod 16 * 4 ].
Proof.
  unfold sextets2. rewrite be_value_2.
  change 63 with (2 ^ 6 - 1). change 15 with (2 ^ 4 - 1).
  rewrite !land_mask, !Z.shiftr_div_pow2, Z.shiftl_mul_pow2 by lia.
  reflexivity.
Qed.

Lemma sextets3_eq x y z :
  let n := 65536 * Z_of_byte x + 256 * Z_of_byte y + Z_of_byte z in
  sextets3 x y z = [ n / 262144; n / 4096 mod 64; n / 64 mod 64; n mod 64 ].
Proof.
  unfold sextets3. rewrite be_value_3.
  change 63 with (2 ^ 6 - 1).
  rewrite !land_mask, !Z.shiftr_div_pow2 by lia.
  reflexivity.
Qed.

Lemma sextets1_range x : Forall in_range (sextets1 x).
Proof.
  rewrite sextets1_eq. pose proof (Z_of_byte_range x).
  unfold in_range.
  repeat (apply Forall_cons; [cbv beta; Z.div_mod_to_equations; lia |]).
  apply Forall_nil.
Qed.

Lemma sextets2_range x y : Forall in_range (sextets2 x y).
Proof.
  rewrite sextets2_eq. pose proof (Z_of_byte_range x).
  pose proof (Z_of_byte_range y).
  unfold in_range.
  repeat (apply Forall_cons; [cbv beta; Z.div_mod_to_equations; lia |]).
  apply Forall_nil.
Qed.

Lemma sextets3_range x y z : Forall in_range (sextets3 x y z).
Proof.
  rewrite sextets3_eq. pose proof (Z_of_byte_range x).
  pose proof (Z_of_byte_range y). pose proof (Z_of_byte_range z).
  unfold in_range.
  repeat (apply Forall_cons; [cbv beta; Z.div_mod_to_equations; lia |]).
  apply Forall_nil.
Qed.

Lemma join6_snoc (l : list Z) (s : Z) :
  in_range s -> join6 (l ++ [s]) = join6 l * 64 + s.
Proof.
  intros Hs. unfold join6. rewrite fold_left_app. simpl.
  apply (lor_shiftl_add _ _ 6); [lia | exact Hs].
Qed.


Lemma chars_keep (l : list Z) :
  Forall in_range l -> Forall (fun c => c <> pad_byte) (chars l).
Proof.
  intros H. apply table_urlsafe in H.
  eapply Forall_impl; [| exact H]. apply urlsafe_char_not_pad.
Qed.

Lemma unpadded_0 : unpadded [] = [].
Proof. reflexivity. Qed.

Lemma unpadded_1 x : unpadded [x] = chars (sextets1 x).
Proof.
  unfold unpadded, urlsafe_b64encode.
  change (b64encode [x]) with (map table (sextets1 x) ++ [pad_byte; pad_byte]).
  rewrite map_app. fold (chars (sextets1 x)).
  rewrite rstrip_app_keep by apply chars_keep, sextets1_range.
  change (map urlsafe [pad_byte; pad_byte]) with (repeat pad_byte 2).
  now rewrite rstrip_all, app_nil_r.
Qed.

Lemma unpadded_2 x y : unpadded [x; y] = chars (sextets2 x y).
Proof.
  unfold unpadded, urlsafe_b64encode.
  change (b64encode [x; y]) with (map table (sextets2 x y) ++ [pad_byte]).
  rewrite map_app. fold (chars (sextets2 x y)).
  rewrite rstrip_app_keep by apply chars_keep, sextets2_range.
  change (map urlsafe [pad_byte]) with (repeat pad_byte 1).
  now rewrite rstrip_all, app_nil_r.
Qed.

Lemma unpadded_3 x y z rest :
  unpadded (x :: y :: z :: rest) = chars (sextets3 x y z) ++ unpadded rest.
Proof.
  unfold unpadded, urlsafe_b64encode.
  change (b64encode (x :: y :: z :: rest))
    with (map table (sextets3 x y z) ++ b64encode rest).
  rewrite map_app. fold (chars (sextets3 x y z)).
  now rewrite rstrip_app_keep by apply chars_keep, sextets3_range.
Qed.

(** No padding and nothing outside the URL-safe alphabet is left. *)
Lemma unpadded_urlsafe (data : bytes) :
  Forall (fun c => is_urlsafe_char c = true) (unpadded data).
Proof.
  induction data as [| x | x y | x y z rest IH] using bytes_ind3.
  - constructor.
  - rewrite unpadded_1. apply table_urlsafe, sextets1_range.
  - rewrite unpadded_2. apply table_urlsafe, sextets2_range.
  - rewrite unpadded_3. apply Forall_app. split; [| exact IH].
    apply table_urlsafe, sextets3_range.
Qed.

Lemma length_unpadded (data : bytes) :
  Z.of_nat (List.length (unpadded data))
  = (4 * Z.of_nat (List.length data) + 2) / 3.
Proof.
  induction data as [| x | x y | x y z rest IH] using bytes_ind3.
  - reflexivity.
  - rewrite unpadded_1. reflexivity.
  - rewrite unpadded_2. reflexivity.
  - rewrite unpadded_3, length_app.
    change (List.length (chars (sextets3 x y z))) with 4%nat.
    change (List.length (x :: y :: z :: rest)) with (3 + List.length rest)%nat.
    rewrite !Nat2Z.inj_add, IH. 
    Z.div_mod_to_equations. lia.
Qed.

(** *** Decoding what was encoded *)

Lemma restore_padding_group (g s : bytes) :
  List.length g = 4%nat -> restore_padding (g ++ s) = g ++ restore_padding s.
Proof.
  intros Hg. unfold restore_padding. rewrite <- app_assoc. do 2 f_equal.
  rewrite length_app, Hg. f_equal.
  rewrite Nat2Z.inj_add. Z.div_mod_to_equations. lia.
Qed.

Lemma decode_group1 x :
  be_bytes 1 (Z.shiftr (join6 (sextets1 x)) 4) = [x].
Proof.
  pose proof (sextets1_range x) as Hr. rewrite sextets1_eq in *.
  inversion Hr as [| ? ? H0 Hr1]; subst.
  inversion Hr1 as [| ? ? H1 _]; subst.
  change [Z_of_byte x / 4; Z_of_byte x mod 4 * 16]
    with ([Z_of_byte x / 4] ++ [Z_of_byte x mod 4 * 16]).
  rewrite join6_snoc by assumption.
  change (join6 [Z_of_byte x / 4]) with (Z.lor 0 (Z_of_byte x / 4)).
  rewrite Z.lor_0_l, Z.shiftr_div_pow2 by lia.
  simpl be_bytes. f_equal. apply byte_of_Z_mod.
  pose proof (Z_of_byte_range x). Z.div_mod_to_equations. lia.
Qed.


Lemma join6_2 a b : in_range a -> in_range b -> join6 [a; b] = a * 64 + b.
Proof.
  intros Ha Hb. change [a; b] with ([a] ++ [b]).
  rewrite join6_snoc by assumption.
  change (join6 [a]) with (Z.lor 0 a). now rewrite Z.lor_0_l.
Qed.

Lemma join6_3 a b c :
  in_range a -> in_range b -> in_range c ->
  join6 [a; b; c] = (a * 64 + b) * 64 + c.
Proof.
  intros Ha Hb Hc. change [a; b; c] with ([a; b] ++ [c]).
  now rewrite join6_snoc, join6_2.
Qed.

Lemma join6_4 a b c d :
  in_range a -> in_range b -> in_range c -> in_range d ->
  join6 [a; b; c; d] = ((a * 64 + b) * 64 + c) * 64 + d.
Proof.
  intros Ha Hb Hc Hd. change [a; b; c; d] with ([a; b; c] ++ [d]).
  now rewrite join6_snoc, join6_3.
Qed.

Ltac split_range H :=
  repeat match type of H with
         | Forall _ (_ :: _) =>
             let H0 := fresh "Hs" in
             let H1 := fresh "Hr" in
             inversion H as [| ? ? H0 H1]; subst; clear H; rename H1 into H
         end.

Lemma decode_group2 x y :
  be_bytes 2 (Z.shiftr (join6 (sextets2 x y)) 2) = [x; y].
Proof.
  pose proof (sextets2_range x y) as Hr. rewrite sextets2_eq in *.
  cbv zeta in *. split_range Hr.
  rewrite join6_3 by assumption. clear Hs Hs0 Hs1 Hr.
  pose proof (Z_of_byte_range x). pose proof (Z_of_byte_range y).
  set (n := 256 * Z_of_byte x + Z_of_byte y) in *.
  assert (Hn : (n / 1024 * 64 + n / 16 mod 64) * 64 + n mod 16 * 4 = n * 4)
    by (Z.div_mod_to_equations; lia).
  rewrite Hn, Z.shiftr_div_pow2, Z.div_mul by lia.
  simpl be_bytes. rewrite Z.shiftr_div_pow2 by lia. change (2 ^ 8) with 256.
  f_equal; [| f_equal]; apply byte_of_Z_mod; subst n;
    Z.div_mod_to_equations; lia.
Qed.

Lemma decode_group3 x y z :
  be_bytes 3 (join6 (sextets3 x y z)) = [x; y; z].
Proof.
  pose proof (sextets3_range x y z) as Hr. rewrite sextets3_eq in *.
  cbv zeta in *. split_range Hr.
  rewrite join6_4 by assumption. clear Hs Hs0 Hs1 Hs2 Hr.
  pose proof (Z_of_byte_range x). pose proof (Z_of_byte_range y).
  pose proof (Z_of_byte_range z).
  set (n := 65536 * Z_of_byte x + 256 * Z_of_byte y + Z_of_byte z) in *.
  assert (Hn : ((n / 262144 * 64 + n / 4096 mod 64) * 64 + n / 64 mod 64) * 64
               + n mod 64 = n)
    by (Z.div_mod_to_equations; lia).
  rewrite Hn. simpl be_bytes. rewrite !Z.shiftr_div_pow2 by lia.
  change (2 ^ 8) with 256.
  f_equal; [| f_equal; [| f_equal]]; apply byte_of_Z_mod; subst n;
    Z.div_mod_to_equations; lia.
Qed.

Lemma eqb_pad_false (c : byte) :
  is_urlsafe_char c = true -> Byte.eqb c pad_byte = false.
Proof.
  intros H. destruct (Byte.eqb c pad_byte) eqn:E; [| reflexivity].
  apply Byte.byte_dec_bl in E. now apply urlsafe_char_not_pad in H.
Qed.

Lemma length_restore_padding_unpadded (data : bytes) :
  (List.length (restore_padding (unpadded data))
   = 4 * ((List.length data + 2) / 3))%nat.
Proof.
  induction data as [| x | x y | x y z rest IH] using bytes_ind3.
  - reflexivity.
  - rewrite unpadded_1. reflexivity.
  - rewrite unpadded_2. reflexivity.
  - rewrite unpadded_3, restore_padding_group by reflexivity.
    rewrite length_app, IH.
    change (List.length (chars (sextets3 x y z))) with 4%nat.
    change (List.length (x :: y :: z :: rest)) with (3 + List.length rest)%nat.
    replace (3 + List.length rest + 2)%nat
      with (List.length rest + 2 + 1 * 3)%nat by lia.
    rewrite Nat.div_add by lia. lia.
Qed.

Lemma decode_fuel_unpadded (data : bytes) :
  forall fuel,
    (List.length (restore_padding (unpadded data)) <= fuel)%nat ->
    urlsafe_b64decode_fuel fuel (restore_padding (unpadded data)) = Some data.
Proof.
  induction data as [| x | x y | x y z rest IH] using bytes_ind3;
    intros fuel Hfuel.
  - destruct fuel; reflexivity.
  - pose proof (sextets1_range x) as Hr.
    pose proof (decode_group1 x) as Hd.
    rewrite unpadded_1 in *. rewrite sextets1_eq in *. split_range Hr.
    destruct fuel as [| f]; [simpl in Hfuel; lia |].
    match goal with
    | |- context [chars [?a; ?b]] =>
        change (restore_padding (chars [a; b]))
          with [urlsafe (table a); urlsafe (table b); pad_byte; pad_byte]
    end.
    cbn [urlsafe_b64decode_fuel].
    rewrite !sextet_of_table by assumption.
    change (Byte.eqb pad_byte pad_byte) with true. cbv iota.
    now rewrite Hd.
  - pose proof (sextets2_range x y) as Hr.
    pose proof (decode_group2 x y) as Hd.
    rewrite unpadded_2 in *. rewrite sextets2_eq in *. cbv zeta in *.
    split_range Hr.
    destruct fuel as [| f]; [simpl in Hfuel; lia |].
    match goal with
    | |- context [chars [?a; ?b; ?c]] =>
        change (restore_padding (chars [a; b; c]))
          with [urlsafe (table a); urlsafe (table b); urlsafe (table c);
                pad_byte]
    end.
    cbn [urlsafe_b64decode_fuel].
    rewrite !sextet_of_table by assumption.
    change (Byte.eqb pad_byte pad_byte) with true. cbv iota.
    rewrite eqb_pad_false
      by (unfold is_urlsafe_char; now rewrite sextet_of_table).
    now rewrite Hd.
  - pose proof (sextets3_range x y z) as Hr.
    pose proof (decode_group3 x y z) as Hd.
    rewrite unpadded_3, restore_padding_group in * by reflexivity.
    rewrite length_app in Hfuel.
    change (List.length (chars (sextets3 x y z))) with 4%nat in Hfuel.
    rewrite sextets3_eq in *. cbv zeta in *. split_range Hr.
    destruct fuel as [| f]; [lia |].
    match goal with
    | |- context [chars [?a; ?b; ?c; ?d]] =>
        change (chars [a; b; c; d] ++ restore_padding (unpadded rest))
          with (urlsafe (table a) :: urlsafe (table b) :: urlsafe (table c)
                :: urlsafe (table d) :: restore_padding (unpadded rest))
    end.
    cbn [urlsafe_b64decode_fuel].
    rewrite !sextet_of_table by assumption.
    rewrite eqb_pad_false
      by (unfold is_urlsafe_char; now rewrite sextet_of_table).
    rewrite IH by lia. now rewrite Hd.
Qed.

(** Decoding the unpadded encoding, with its padding restored, gives the
    bytes back. *)
Lemma decode_unpadded (data : bytes) :
  urlsafe_b64decode (restore_padding (unpadded data)) = Some data.
Proof. apply decode_fuel_unpadded. apply Nat.le_refl. Qed.

Lemma is_urlsafe_char_alphabet (c : byte) :
  is_urlsafe_char c = existsb (Byte.eqb c) urlsafe_alphabet.
Proof. destruct c; reflexivity. Qed.

Lemma urlsafe_char_in_alphabet (c : byte) :
  is_urlsafe_char c = true -> In c urlsafe_alphabet.
Proof.
  rewrite is_urlsafe_char_alphabet. intros H.
  apply existsb_exists in H. destruct H as [x [Hin Hx]].
  apply Byte.byte_dec_bl in Hx. now subst.
Qed.

End Base64Facts.

(** ** Strings *)

Module StringFacts.
Import Bytes Props.
Local Open Scope string_scope.

Lemma encode_decode (b : bytes) : encode (decode b) = b.
Proof. apply list_byte_of_string_of_list_byte. Qed.

Lemma decode_encode (s : string) : decode (encode s) = s.
Proof. apply string_of_list_byte_of_string. Qed.

Lemma encode_cons (c : ascii) (s : string) :
  encode (String c s) = byte_of_ascii c :: encode s.
Proof. reflexivity. Qed.

Lemma length_encode (s : string) : List.length (encode s) = String.length s.
Proof.
  induction s as [| c s IH]; [reflexivity |].
  rewrite encode_cons. simpl. now rewrite IH.
Qed.

Lemma length_decode (b : bytes) : String.length (decode b) = List.length b.
Proof. now rewrite <- length_encode, encode_decode. Qed.

Lemma append_assoc (a b c : string) : (a ++ b) ++ c = a ++ (b ++ c).
Proof. induction a as [| x a IH]; simpl; [reflexivity | now rewrite IH]. Qed.

Lemma append_inv_tail (a b t : string) : a ++ t = b ++ t -> a = b.
Proof.
  intros H.
  assert (Hl : list_ascii_of_string (a ++ t) = list_ascii_of_string (b ++ t))
    by now rewrite H.
  assert (Happ : forall x y, list_ascii_of_string (x ++ y)
                  = (list_ascii_of_string x ++ list_ascii_of_string y)%list).
  { intros x y. induction x as [| c x IH]; simpl; [reflexivity | now rewrite IH]. }
  rewrite !Happ in Hl. apply app_inv_tail in Hl.
  rewrite <- (string_of_list_ascii_of_string a),
          <- (string_of_list_ascii_of_string b).
  now rewrite Hl.
Qed.

(** *** Splitting at a separator *)

Lemma free_of_cons sep c s :
  free_of sep (String c s) <-> Ascii.eqb c sep = false /\ free_of sep s.
Proof.
  unfold free_of. simpl. destruct (Ascii.eqb c sep); simpl.
  - split; [discriminate | intros [H _]; discriminate].
  - tauto.
Qed.

Lemma split_on_nonempty sep s : split_on sep s <> [].
Proof.
  induction s as [| c s IH]; simpl.
  - discriminate.
  - destruct (Ascii.eqb c sep); [discriminate |].
    destruct (split_on sep s); [contradiction | discriminate].
Qed.

Lemma split_on_free sep s : free_of sep s -> split_on sep s = [s].
Proof.
  induction s as [| c s IH]; intros H.
  - reflexivity.
  - apply free_of_cons in H. destruct H as [Hc Hs].
    simpl. rewrite Hc, (IH Hs). reflexivity.
Qed.

Lemma split_on_append sep a b :
  free_of sep a ->
  split_on sep (a ++ String sep b) = a :: split_on sep b.
Proof.
  induction a as [| c a IH]; intros H.
  - simpl. now rewrite Ascii.eqb_refl.
  - apply free_of_cons in H. destruct H as [Hc Ha].
    simpl. rewrite Hc, (IH Ha). reflexivity.
Qed.

Lemma split_three sep a b c :
  free_of sep a -> free_of sep b -> free_of sep c ->
  split_on sep (a ++ String sep (b ++ String sep c)) = [a; b; c].
Proof.
  intros Ha Hb Hc.
  now rewrite !split_on_append, split_on_free by assumption.
Qed.

Lemma count_char_append sep a b :
  count_char sep (a ++ b) = (count_char sep a + count_char sep b)%nat.
Proof.
  induction a as [| c a IH]; simpl; [reflexivity |].
  rewrite IH. lia.
Qed.

(** *** Substrings *)

Lemma prefix_append (p q hay : string) :
  prefix (p ++ q) hay = true -> prefix p hay = true.
Proof.
  revert hay. induction p as [| c p IH]; intros hay H.
  - destruct hay; reflexivity.
  - destruct hay as [| d hay]; simpl in *; [discriminate |].
    destruct (ascii_dec c d); [now apply IH | discriminate].
Qed.

Lemma contains_append (p q hay : string) :
  contains (p ++ q) hay = true -> contains p hay = true.
Proof.
  induction hay as [| d hay IH]; intros H.
  - cbn [contains] in *. rewrite orb_false_r in *.
    now apply prefix_append in H.
  - cbn [contains] in *. apply orb_true_iff in H. apply orb_true_iff.
    destruct H as [H | H]; [left; now apply prefix_append in H | right; auto].
Qed.

Lemma contains_append_false (p q hay : string) :
  contains p hay = false -> contains (p ++ q) hay = false.
Proof.
  intros H. destruct (contains (p ++ q) hay) eqn:E; [| reflexivity].
  apply contains_append in E. congruence.
Qed.

End StringFacts.

(** ** Tokens *)

Module JwtFacts.
Import Bytes BytesFacts Base64 Base64Facts Json Jwt Props StringFacts.
Local Open Scope string_scope.

Lemma b64url_unpadded (data : bytes) : _b64url data = decode (unpadded data).
Proof. reflexivity. Qed.

Lemma b64url_text (data : bytes) : is_b64url_text (_b64url data).
Proof.
  unfold is_b64url_text. rewrite b64url_unpadded, encode_decode.
  apply unpadded_urlsafe.
Qed.

Lemma b64url_decode_b64url (data : bytes) :
  b64url_decode (_b64url data) = Some data.
Proof.
  unfold b64url_decode. rewrite b64url_unpadded, encode_decode.
  apply decode_unpadded.
Qed.

Lemma b64url_inj (a b : bytes) : _b64url a = _b64url b -> a = b.
Proof.
  intros H. apply (f_equal b64url_decode) in H.
  rewrite !b64url_decode_b64url in H. now injection H.
Qed.

Lemma length_b64url (data : bytes) :
  Z.of_nat (String.length (_b64url data))
  = ((4 * Z.of_nat (List.length data) + 2) / 3)%Z.
Proof.
  rewrite b64url_unpadded, length_decode. apply length_unpadded.
Qed.

Lemma text_free_of_dot (s : string) : is_b64url_text s -> free_of "." s.
Proof.
  unfold is_b64url_text.
  induction s as [| c s IH]; intros H.
  - reflexivity.
  - rewrite encode_cons in H. inversion H as [| ? ? Hc Hs]; subst.
    apply free_of_cons. split; [| now apply IH].
    destruct (Ascii.eqb c ".") eqn:E; [| reflexivity].
    apply Ascii.eqb_eq in E. subst c. discriminate Hc.
Qed.

Lemma text_free_of_pad (s : string) : is_b64url_text s -> free_of "=" s.
Proof.
  unfold is_b64url_text.
  induction s as [| c s IH]; intros H.
  - reflexivity.
  - rewrite encode_cons in H. inversion H as [| ? ? Hc Hs]; subst.
    apply free_of_cons. split; [| now apply IH].
    destruct (Ascii.eqb c "=") eqn:E; [| reflexivity].
    apply Ascii.eqb_eq in E. subst c. discriminate Hc.
Qed.

(** *** Digest sizes *)

Lemma length_sha256 (msg : bytes) :
  List.length (SHA256.sha256 msg) = SHA256.digest_size.
Proof.
  unfold SHA256.sha256, SHA256.digest_of.
  now rewrite !length_app, !length_be_bytes.
Qed.

Lemma length_hmac_sha256 (key msg : bytes) :
  List.length (HMAC.hmac_sha256 key msg) = 32%nat.
Proof. apply length_sha256. Qed.

Lemma length_signature (secret input : bytes) :
  String.length (signature secret input) = 43%nat.
Proof.
  apply Nat2Z.inj. unfold signature.
  now rewrite length_b64url, length_hmac_sha256.
Qed.

Lemma b64url_nonempty (data : bytes) : data <> [] -> _b64url data <> "".
Proof.
  intros Hd He. apply (f_equal String.length) in He.
  apply (f_equal Z.of_nat) in He. rewrite length_b64url in He.
  destruct data as [| x data]; [contradiction |].
  simpl List.length in He. simpl String.length in He.
  rewrite Nat2Z.inj_succ in He. Z.div_mod_to_equations. lia.
Qed.

(** *** The issue-time claim *)

Lemma dumps_int_inj (a b : Z) : dumps_int a = dumps_int b -> a = b.
Proof.
  unfold dumps_int. intros H.
  apply (f_equal NilEmpty.int_of_string) in H.
  rewrite !NilEmpty.isi in H. injection H as H.
  now apply DecimalZ.to_int_inj.
Qed.

Lemma iat_json_inj (a b : Z) : iat_json a = iat_json b -> a = b.
Proof.
  unfold iat_json, dumps_compact. cbn [dumps map concat fst snd].
  intros H. apply dumps_int_inj.
  cbn in H. injection H as H. now apply append_inv_tail in H.
Qed.

Lemma payload_inj (t1 t2 : Q) :
  payload t1 = payload t2 <-> int_of_float t1 = int_of_float t2.
Proof.
  unfold payload. split.
  - intros H. apply b64url_inj in H.
    apply (f_equal decode) in H. rewrite !decode_encode in H.
    now apply iat_json_inj.
  - now intros ->.
Qed.

(** At or after the epoch, truncation is rounding down to the second. *)
Lemma int_of_float_floor (t : Q) : (0 <= t)%Q -> int_of_float t = Qfloor t.
Proof.
  destruct t as [n d]. unfold Qle, int_of_float, Qfloor. simpl.
  intros H. apply Z.quot_div_nonneg; lia.
Qed.

(** *** The shape of an issued token *)

Lemma make_engine_jwt_eq (secret_hex : string) (now : Q) (key : bytes) :
  fromhex secret_hex = Some key ->
  make_engine_jwt secret_hex now
  = Some (header ++ "." ++ payload now ++ "."
          ++ signature key (encode (header ++ "." ++ payload now))).
Proof. unfold make_engine_jwt. now intros ->. Qed.

Lemma split_token (h p s : string) :
  is_b64url_text h -> is_b64url_text p -> is_b64url_text s ->
  split_on "." (h ++ "." ++ p ++ "." ++ s) = [h; p; s].
Proof.
  intros Hh Hp Hs. apply (split_three "." h p s); now apply text_free_of_dot.
Qed.

(** *** The text the script encodes and decodes is ASCII *)

Lemma urlsafe_char_ascii (c : byte) :
  is_urlsafe_char c = true -> is_ascii c = true.
Proof. destruct c; vm_compute; intros H; solve [reflexivity | discriminate H]. Qed.

Lemma b64url_ascii (data : bytes) : ascii_text (_b64url data).
Proof.
  pose proof (b64url_text data) as H. unfold is_b64url_text in H.
  eapply Forall_impl; [| exact H]. apply urlsafe_char_ascii.
Qed.

Lemma encode_append (a b : string) : encode (a ++ b) = (encode a ++ encode b)%list.
Proof.
  induction a as [| c a IH]; [reflexivity |].
  cbn [append]. rewrite !encode_cons, IH. reflexivity.
Qed.

Lemma ascii_text_append (a b : string) :
  ascii_text a -> ascii_text b -> ascii_text (a ++ b).
Proof.
  unfold ascii_text. intros Ha Hb. rewrite encode_append.
  apply Forall_app. now split.
Qed.

Lemma uint_ascii (d : Decimal.uint) : ascii_text (NilEmpty.string_of_uint d).
Proof.
  unfold ascii_text.
  induction d; cbn [NilEmpty.string_of_uint]; try rewrite encode_cons;
    constructor; solve [reflexivity | assumption].
Qed.

Lemma dumps_int_ascii (z : Z) : ascii_text (dumps_int z).
Proof.
  unfold dumps_int. destruct (Z.to_int z) as [d | d];
    cbn [NilEmpty.string_of_int].
  - apply uint_ascii.
  - unfold ascii_text. rewrite encode_cons.
    constructor; [reflexivity | apply uint_ascii].
Qed.

Lemma iat_json_ascii (z : Z) : ascii_text (iat_json z).
Proof.
  change (iat_json z) with ("{" ++ quote ++ "iat" ++ quote ++ ":" ++ dumps_int z ++ "}").
  do 5 (apply ascii_text_append; [repeat constructor |]).
  apply ascii_text_append; [apply dumps_int_ascii | repeat constructor].
Qed.

Lemma signing_input_ascii (now : Q) :
  ascii_text (header ++ "." ++ payload now).
Proof.
  apply ascii_text_append; [apply b64url_ascii |].
  apply ascii_text_append; [repeat constructor | apply b64url_ascii].
Qed.

(** *** Known answers

    The models of [hashlib.sha256], [hmac.new] and [make_engine_jwt] on
    published test vectors: FIPS 180-4 (one and two blocks), RFC 4231
    (test cases 1 and 6), and a token computed by CPython. *)

Lemma sha256_abc :
  Some (SHA256.sha256 (encode "abc"))
  = fromhex "ba7816bf8f01cfea414140de5dae2223b00361a396177a9cb410ff61f20015ad".
Proof. vm_compute. reflexivity. Qed.

Lemma sha256_two_blocks :
  Some (SHA256.sha256
          (encode "abcdbcdecdefdefgefghfghighijhijkijkljklmklmnlmnomnopnopq"))
  = fromhex "248d6a61d20638b8e5c026930c3e6039a33ce45964ff2167f6ecedd419db06c1".
Proof. vm_compute. reflexivity. Qed.

Lemma hmac_sha256_rfc4231_1 :
  Some (HMAC.hmac_sha256 (repeat x0b 20) (encode "Hi There"))
  = fromhex "b0344c61d8db38535ca8afceaf0bf12b881dc200c9833da726e9376c2e32cff7".
Proof. vm_compute. reflexivity. Qed.

Lemma hmac_sha256_rfc4231_6 :
  Some (HMAC.hmac_sha256 (repeat xaa 131)
          (encode "Test Using Larger Than Block-Size Key - Hash Key First"))
  = fromhex "60e431591ee0b67f0d8a26aacbf5b77f8e0bc6213728c5140546040f0ee37f54".
Proof. vm_compute. reflexivity. Qed.

Lemma make_engine_jwt_known_answer :
  make_engine_jwt
    "00112233445566778899aabbccddeeff00112233445566778899aabbccddeeff"
    (17000000005 # 10)
  = Some ("eyJhbGciOiJIUzI1NiIsInR5cCI6IkpXVCJ9.eyJpYXQiOjE3MDAwMDAwMDB9."
          ++ "w-xngeTndxgc5SKh0MMf4OXrhkC-1RUHjXBnrjuZrWU").
Proof. vm_compute. reflexivity. Qed.

(** Before the epoch [int] rounds up, not down. *)
Lemma int_of_float_before_epoch :
  int_of_float (-1 # 2) = 0 /\ Qfloor (-1 # 2) = (-1)%Z.
Proof. split; reflexivity. Qed.

(** *** Splitting and verifying an issued token *)

Lemma header_literal_json : header_literal = encode (dumps_compact header_json).
Proof. reflexivity. Qed.

Lemma issued_eq (secret_hex : string) (key : bytes) (now : Q) (tok : string) :
  fromhex secret_hex = Some key ->
  make_engine_jwt secret_hex now = Some tok ->
  tok = header ++ "." ++ payload now ++ "."
        ++ signature key (encode (header ++ "." ++ payload now)).
Proof.
  intros Hkey Htok. rewrite (make_engine_jwt_eq _ now _ Hkey) in Htok.
  congruence.
Qed.

Lemma bytes_eqb_refl (b : bytes) : bytes_eqb b b = true.
Proof. unfold bytes_eqb. now destruct (list_eq_dec Byte.byte_eq_dec b b). Qed.

Lemma split_issued (key : bytes) (now : Q) :
  split_on "." (header ++ "." ++ payload now ++ "."
                ++ signature key (encode (header ++ "." ++ payload now)))
  = [header; payload now;
     signature key (encode (header ++ "." ++ payload now))].
Proof. apply split_token; apply b64url_text. Qed.

Lemma verify_issued
    (secret_hex : string) (key : bytes) (now : Q) (tok : string) :
  fromhex secret_hex = Some key ->
  make_engine_jwt secret_hex now = Some tok ->
  verify key tok = true.
Proof.
  intros Hkey Htok. rewrite (issued_eq _ _ _ _ Hkey Htok). clear Htok.
  unfold verify. rewrite split_issued.
  unfold signature. rewrite b64url_decode_b64url. apply bytes_eqb_refl.
Qed.

Lemma payload_of_issued
    (secret_hex : string) (key : bytes) (now : Q) (tok : string) :
  fromhex secret_hex = Some key ->
  make_engine_jwt secret_hex now = Some tok ->
  payload_of tok = Some (encode (iat_json (int_of_float now))).
Proof.
  intros Hkey Htok. rewrite (issued_eq _ _ _ _ Hkey Htok). clear Htok.
  unfold payload_of. rewrite split_issued.
  unfold payload. apply b64url_decode_b64url.
Qed.

End JwtFacts.

(** ** Hexadecimal text *)

Module HexFacts.
Import Bytes Props.

Lemma hex_digit_not_space (c : ascii) :
  hex_digit c <> None -> is_space c = false.
Proof.
  destruct c as [[] [] [] [] [] [] [] []]; vm_compute;
    intros H; solve [reflexivity | now contradiction H].
Qed.

Lemma fromhex_chars_wf_fuel (n : nat) :
  forall s, (List.length s <= n)%nat -> fromhex_chars s <> None -> hex_wf s.
Proof.
  induction n as [| n IH]; intros s Hlen H.
  - destruct s; [constructor | simpl in Hlen; lia].
  - destruct s as [| c rest]; [constructor |].
    simpl in Hlen. cbn [fromhex_chars] in H.
    destruct (is_space c) eqn:Hsp.
    + apply hex_wf_space; [assumption |]. apply IH; [lia | assumption].
    + destruct (hex_digit c) eqn:Hc; [| contradiction].
      destruct rest as [| d rest']; [contradiction |].
      destruct (hex_digit d) eqn:Hd; [| contradiction].
      destruct (fromhex_chars rest') eqn:Hr; [| contradiction].
      apply hex_wf_pair; try congruence.
      apply IH; [simpl in Hlen; lia | congruence].
Qed.

Lemma hex_wf_fromhex_chars (s : list ascii) :
  hex_wf s -> fromhex_chars s <> None.
Proof.
  induction 1 as [| c s Hsp _ IH | a b s Ha Hb _ IH].
  - discriminate.
  - cbn [fromhex_chars]. now rewrite Hsp.
  - cbn [fromhex_chars]. rewrite (hex_digit_not_space a Ha).
    destruct (hex_digit a); [| contradiction].
    destruct (hex_digit b); [| contradiction].
    destruct (fromhex_chars s); [discriminate | contradiction].
Qed.

(** [bytes.fromhex] succeeds exactly on well-formed text. *)
Lemma fromhex_wf (s : string) : fromhex s <> None <-> well_formed_hex s.
Proof.
  unfold fromhex, well_formed_hex. split.
  - apply (fromhex_chars_wf_fuel _ _ (Nat.le_refl _)).
  - apply hex_wf_fromhex_chars.
Qed.

End HexFacts.

(** ** The session *)

Module ScriptFacts.
Import Bytes Json Jwt Script Props StringFacts JwtFacts.
Local Open Scope string_scope.

Lemma main_eq (g : globals) (w : world) :
  main g w
  = let w1 := log (Connect (WS_URL g) (authorization g) None) w in
    if accepts w (authorization g)
    then
      let w2 := log (Print (Sent req)) (log (Send (dumps_default req)) w1) in
      match inbox w with
      | [] => Blocked w2
      | frame :: rest =>
          Returned tt
            (log Close
               (log (Print (Got frame))
                  (log (Recv frame) (World (trace w2) rest (accepts w)))))
      end
    else Raised InvalidHandshake w1.
Proof.
  unfold main, async_with, connect, bind, send, print, emit, recv.
  fold (authorization g). cbv zeta.
  destruct (accepts w (authorization g)); [| reflexivity].
  cbn [inbox log accepts]. destruct (inbox w); reflexivity.
Qed.

Lemma main_trace_final (g : globals) (w : world) :
  trace (final (main g w))
  = (trace w ++ main_trace g (accepts w (authorization g)) (inbox w))%list.
Proof.
  rewrite main_eq. cbv zeta. unfold main_trace.
  destruct (accepts w (authorization g)); [| reflexivity].
  destruct (inbox w); cbn [final log trace];
    repeat rewrite <- app_assoc; reflexivity.
Qed.

Lemma issued_app (a b : list event) : issued (a ++ b) = (issued a ++ issued b)%list.
Proof. apply flat_map_app. Qed.

Lemma handshakes_app (a b : list event) :
  handshakes (a ++ b) = (handshakes a ++ handshakes b)%list.
Proof. apply flat_map_app. Qed.

Lemma main_trace_issued g ok frames : issued (main_trace g ok frames) = [].
Proof. destruct ok; [destruct frames |]; reflexivity. Qed.

Lemma main_trace_handshakes g ok frames :
  handshakes (main_trace g ok frames) = [authorization g].
Proof. destruct ok; [destruct frames |]; reflexivity. Qed.

Lemma main_trace_sent g ok frames :
  sent (main_trace g ok frames) = if ok then [dumps_default req] else [].
Proof. destruct ok; [destruct frames |]; reflexivity. Qed.

Lemma load_returned (file_text : string) (now : Q) (w0 w1 : world) (g : globals) :
  load file_text now w0 = Returned g w1 ->
  make_engine_jwt (strip file_text) now = Some (JWT g)
  /\ w1 = log (Issue now (JWT g)) w0.
Proof.
  unfold load, bind, issue, ret.
  destruct (make_engine_jwt (strip file_text) now) as [tok |];
    [| discriminate].
  intros H. assert (Hg : g = Globals (strip file_text) "ws://127.0.0.1:8551" tok)
    by congruence.
  assert (Hw : w1 = log (Issue now tok) w0) by congruence.
  subst g. now split.
Qed.

Lemma issued_starts_with_header (secret_hex : string) (now : Q) (tok : string) :
  make_engine_jwt secret_hex now = Some tok ->
  exists rest, tok = header ++ rest.
Proof.
  intros H. destruct (fromhex secret_hex) as [key |] eqn:Hkey.
  - rewrite (make_engine_jwt_eq _ now _ Hkey) in H.
    eexists. symmetry. injection H as H. exact H.
  - unfold make_engine_jwt in H. rewrite Hkey in H. discriminate.
Qed.

Lemma request_free_of_token (secret_hex : string) (now : Q) (tok : string) :
  make_engine_jwt secret_hex now = Some tok ->
  contains tok (dumps_default req) = false.
Proof.
  intros H. apply issued_starts_with_header in H. destruct H as [rest ->].
  apply contains_append_false. vm_compute. reflexivity.
Qed.

Lemma main_returns
    (g : globals) (w : world) (frame : string) (rest : list string) :
  accepts w (authorization g) = true ->
  inbox w = frame :: rest ->
  main g w
  = Returned tt
      (World (trace w ++ main_trace g true (frame :: rest)) rest (accepts w)).
Proof.
  intros Hok Hin. rewrite main_eq. cbv zeta. rewrite Hok, Hin.
  unfold log, main_trace. cbn [trace inbox accepts].
  repeat rewrite <- app_assoc. reflexivity.
Qed.

Lemma recv_unlimited
    (ws : connection) (w : world) (frame : string) (rest : list string) :
  conn_max_size ws = None ->
  inbox w = frame :: rest ->
  recv ws w
  = Returned frame (log (Recv frame) (World (trace w) rest (accepts w))).
Proof. intros Hm Hin. unfold recv. now rewrite Hin, Hm. Qed.

Lemma recv_over_limit (ws : connection) (w : world) (m : Z) (frame : string)
    (rest : list string) :
  conn_max_size ws = Some m ->
  (m < Z.of_nat (String.length frame))%Z ->
  inbox w = frame :: rest ->
  recv ws w = Raised PayloadTooBig (World (trace w) rest (accepts w)).
Proof.
  intros Hm Hlt Hin. unfold recv. rewrite Hin, Hm. unfold too_big.
  apply Z.ltb_lt in Hlt. now rewrite Hlt.
Qed.

Lemma reconnect_trace (n : nat) (g : globals) :
  forall w, exists new,
    trace (final (reconnect n g w)) = (trace w ++ new)%list
    /\ issued new = []
    /\ Forall (eq (authorization g)) (handshakes new).
Proof.
  induction n as [| n IH]; intros w.
  - exists []. cbn. rewrite app_nil_r. repeat split. constructor.
  - cbn [reconnect]. unfold bind.
    pose proof (main_trace_final g w) as Ht.
    set (new1 := main_trace g (accepts w (authorization g)) (inbox w)) in *.
    assert (H1 : issued new1 = []) by apply main_trace_issued.
    assert (H2 : handshakes new1 = [authorization g])
      by apply main_trace_handshakes.
    destruct (main g w) as [[] w' | e w' | w']; cbn [final] in Ht.
    + destruct (IH w') as [new2 [Hn [Hi Hh]]].
      exists (new1 ++ new2)%list. rewrite Hn, Ht, app_assoc.
      split; [reflexivity |]. rewrite issued_app, handshakes_app, H1, H2, Hi.
      split; [reflexivity |]. constructor; [reflexivity | exact Hh].
    + exists new1. cbn [final]. rewrite H1, H2. repeat split; try assumption.
      repeat constructor.
    + exists new1. cbn [final]. rewrite H1, H2. repeat split; try assumption.
      repeat constructor.
Qed.

End ScriptFacts.

(** * The token issuer *)

Section TokenIssuer.
Import Bytes BytesFacts Base64 Base64Facts Json Jwt Script Props.
Import StringFacts JwtFacts HexFacts.
Local Open Scope string_scope.

(** C9: for every byte string [b], [_b64url b] contains no [=] and only
    characters of the URL-safe alphabet, and decoding it with the padding
    restored gives [b] back. *)
Theorem b64url_roundtrip (b : bytes) :
  Forall (fun c => c <> "="%byte /\ In c urlsafe_alphabet) (encode (_b64url b))
  /\ urlsafe_b64decode (restore_padding (encode (_b64url b))) = Some b.
Proof.
  split.
  - pose proof (b64url_text b) as H. unfold is_b64url_text in H.
    eapply Forall_impl; [| exact H]. intros c Hc. split.
    + now apply urlsafe_char_not_pad.
    + now apply urlsafe_char_in_alphabet.
  - apply b64url_decode_b64url.
Qed.

(** C1: for every well-formed hex secret and every clock reading, the
    issued token is three unpadded base64url segments joined by dots: the
    encoding of the fixed JSON object [{"alg":"HS256","typ":"JWT"}], the
    encoding of the JSON object [{"iat":t}] with [t] the integer seconds of
    the clock reading, and the encoding of the HMAC-SHA256, under the
    decoded secret, of the first segment, a dot and the second segment. *)
Theorem token_format (secret_hex : string) (key : bytes) (now : Q) :
  fromhex secret_hex = Some key ->
  exists h p s,
    make_engine_jwt secret_hex now = Some (h ++ "." ++ p ++ "." ++ s)
    /\ split_on "." (h ++ "." ++ p ++ "." ++ s) = [h; p; s]
    /\ is_b64url_text h /\ is_b64url_text p /\ is_b64url_text s
    /\ h = _b64url (encode (dumps_compact header_json))
    /\ p = _b64url (encode (dumps_compact
                              (JDict [("iat", JInt (int_of_float now))])))
    /\ s = _b64url (HMAC.hmac_sha256 key (encode (h ++ "." ++ p))).
Proof.
  intros Hkey.
  exists header, (payload now),
    (signature key (encode (header ++ "." ++ payload now))).
  split; [now apply make_engine_jwt_eq |].
  split; [apply split_token; apply b64url_text |].
  split; [apply b64url_text |]. split; [apply b64url_text |].
  split; [apply b64url_text |].
  split; [unfold header; now rewrite header_literal_json |].
  split; reflexivity.
Qed.

Lemma token_format_witness :
  exists h p s,
    make_engine_jwt "00ff" (1700000000 # 1) = Some (h ++ "." ++ p ++ "." ++ s)
    /\ split_on "." (h ++ "." ++ p ++ "." ++ s) = [h; p; s]
    /\ is_b64url_text h /\ is_b64url_text p /\ is_b64url_text s
    /\ h = _b64url (encode (dumps_compact header_json))
    /\ p = _b64url (encode (dumps_compact
             (JDict [("iat", JInt (int_of_float (1700000000 # 1)))])))
    /\ s = _b64url (HMAC.hmac_sha256 [x00; xff] (encode (h ++ "." ++ p))).
Proof.
  apply (token_format "00ff" [x00; xff] (1700000000 # 1)). reflexivity.
Defined.

(** C3, as the code has it: issuance fails, with the [ValueError] of
    [bytes.fromhex], exactly when the hexadecimal text is malformed; the
    empty secret, whose decoded length is zero, is accepted. *)
Theorem issuance_fails_iff_malformed :
  (forall secret_hex now,
      make_engine_jwt secret_hex now = None <-> ~ well_formed_hex secret_hex)
  /\ (forall now, make_engine_jwt "" now <> None).
Proof.
  split.
  - intros secret_hex now. rewrite <- fromhex_wf. unfold make_engine_jwt.
    destruct (fromhex secret_hex).
    + split; [discriminate | intros H; exfalso; apply H; discriminate].
    + split; [intros _ H; now apply H | reflexivity].
  - intros now. now rewrite (make_engine_jwt_eq "" now [] eq_refl).
Qed.

(** C3 as stated fails: the empty secret decodes to zero bytes, and a token
    signed with the empty key is returned. *)
Lemma empty_secret_accepted :
  fromhex "" = Some []
  /\ make_engine_jwt "" (1700000000 # 1)
     = Some ("eyJhbGciOiJIUzI1NiIsInR5cCI6IkpXVCJ9.eyJpYXQiOjE3MDAwMDAwMDB9."
             ++ "AV0neG6Q-D2P_lDW7gragYW8jJ_BPpKgG5A6auv-Ef4").
Proof. split; vm_compute; reflexivity. Qed.

(** C4: for every well-formed secret, the HMAC-SHA256, under the decoded
    secret, of the issued header segment, a dot and the issued payload
    segment is byte for byte the decoded signature segment. *)
Theorem signature_recomputes
    (secret_hex : string) (key : bytes) (now : Q) (tok : string) :
  fromhex secret_hex = Some key ->
  make_engine_jwt secret_hex now = Some tok ->
  exists h p s,
    split_on "." tok = [h; p; s]
    /\ b64url_decode s = Some (HMAC.hmac_sha256 key (encode (h ++ "." ++ p))).
Proof.
  intros Hkey Htok. rewrite (issued_eq _ _ _ _ Hkey Htok). clear Htok.
  exists header, (payload now),
    (signature key (encode (header ++ "." ++ payload now))).
  split; [apply split_issued |].
  unfold signature. apply b64url_decode_b64url.
Qed.

Lemma signature_recomputes_witness :
  exists h p s,
    split_on "." (JWT sample_globals) = [h; p; s]
    /\ b64url_decode s
       = Some (HMAC.hmac_sha256 [x00; xff] (encode (h ++ "." ++ p))).
Proof.
  apply (signature_recomputes "00ff" [x00; xff] (1700000000 # 1)
           (JWT sample_globals));
    vm_compute; reflexivity.
Defined.

(** C5: two tokens issued under one secret both verify under it, and their
    issue-time claims coincide exactly when the two clock readings have the
    same integer seconds; for readings at or after the epoch these are the
    readings that fall in the same whole second. *)
Theorem issuances_verify_and_differ
    (secret_hex : string) (key : bytes) (t1 t2 : Q) (tok1 tok2 : string) :
  fromhex secret_hex = Some key ->
  make_engine_jwt secret_hex t1 = Some tok1 ->
  make_engine_jwt secret_hex t2 = Some tok2 ->
  verify key tok1 = true /\ verify key tok2 = true
  /\ (payload_of tok1 = payload_of tok2 <-> int_of_float t1 = int_of_float t2)
  /\ ((0 <= t1)%Q -> (0 <= t2)%Q ->
      (payload_of tok1 = payload_of tok2 <-> Qfloor t1 = Qfloor t2)).
Proof.
  intros Hkey H1 H2.
  assert (Hp : payload_of tok1 = payload_of tok2
               <-> int_of_float t1 = int_of_float t2).
  { rewrite (payload_of_issued _ _ _ _ Hkey H1),
            (payload_of_issued _ _ _ _ Hkey H2).
    split.
    - intros H. apply iat_json_inj.
      rewrite <- (decode_encode (iat_json (int_of_float t1))),
              <- (decode_encode (iat_json (int_of_float t2))).
      congruence.
    - now intros ->. }
  split; [now apply (verify_issued secret_hex key t1) |].
  split; [now apply (verify_issued secret_hex key t2) |].
  split; [exact Hp |].
  intros Ht1 Ht2. now rewrite Hp, !int_of_float_floor.
Qed.

Lemma issuances_verify_and_differ_witness :
  let t1 := 1700000000 # 1 in
  let t2 := 17000000015 # 10 in
  let tok1 := JWT sample_globals in
  let tok2 := sample_token_later in
  verify [x00; xff] tok1 = true /\ verify [x00; xff] tok2 = true
  /\ (payload_of tok1 = payload_of tok2 <-> int_of_float t1 = int_of_float t2)
  /\ ((0 <= t1)%Q -> (0 <= t2)%Q ->
      (payload_of tok1 = payload_of tok2 <-> Qfloor t1 = Qfloor t2)).
Proof.
  cbv zeta.
  apply (issuances_verify_and_differ "00ff" [x00; xff]);
    vm_compute; reflexivity.
Defined.

(** C10: an issued token has exactly two dots, which split it into three
    non-empty segments, and its signature segment is 43 characters long,
    the HMAC-SHA256 digest being 32 bytes whatever the secret. *)
Theorem token_shape
    (secret_hex : string) (key : bytes) (now : Q) (tok : string) :
  fromhex secret_hex = Some key ->
  make_engine_jwt secret_hex now = Some tok ->
  count_char "." tok = 2%nat
  /\ exists h p s,
      split_on "." tok = [h; p; s]
      /\ h <> "" /\ p <> "" /\ s <> ""
      /\ String.length s = 43%nat
      /\ List.length (HMAC.hmac_sha256 key (encode (h ++ "." ++ p))) = 32%nat.
Proof.
  intros Hkey Htok. rewrite (issued_eq _ _ _ _ Hkey Htok). clear Htok.
  set (h := header). set (p := payload now).
  set (s := signature key (encode (h ++ "." ++ p))).
  assert (Hh : free_of "." h) by apply text_free_of_dot, b64url_text.
  assert (Hp : free_of "." p) by apply text_free_of_dot, b64url_text.
  assert (Hs : free_of "." s) by apply text_free_of_dot, b64url_text.
  split.
  - rewrite !count_char_append. unfold free_of in *.
    rewrite Hh, Hp, Hs. reflexivity.
  - exists h, p, s. split; [apply split_issued |].
    split; [apply b64url_nonempty; discriminate |].
    split.
    { apply b64url_nonempty. intros He.
      apply (f_equal (@List.length byte)) in He. discriminate He. }
    assert (Hlen : String.length s = 43%nat) by apply length_signature.
    split; [intros He; rewrite He in Hlen; discriminate |].
    split; [exact Hlen | apply length_hmac_sha256].
Qed.

Lemma token_shape_witness :
  count_char "." (JWT sample_globals) = 2%nat
  /\ exists h p s,
      split_on "." (JWT sample_globals) = [h; p; s]
      /\ h <> "" /\ p <> "" /\ s <> ""
      /\ String.length s = 43%nat
      /\ List.length (HMAC.hmac_sha256 [x00; xff] (encode (h ++ "." ++ p)))
         = 32%nat.
Proof.
  apply (token_shape "00ff" [x00; xff] (1700000000 # 1) (JWT sample_globals));
    vm_compute; reflexivity.
Defined.

End TokenIssuer.

(** * The session *)

Section Session.
Import Bytes Json Jwt Script Props StringFacts JwtFacts ScriptFacts.
Local Open Scope string_scope.

(** C2, as the code has it: [main] sends one request, the one with id 1,
    and completes with the first frame the connection delivers, whatever
    that frame is; so [{"id":1,"result":[]}] arriving first completes the
    call with that frame. *)
Theorem completion_is_first_frame
    (g : globals) (w : world) (frame : string) (rest : list string) :
  accepts w (authorization g) = true ->
  inbox w = frame :: rest ->
  exists w',
    main g w = Returned tt w'
    /\ sent (trace w') = (sent (trace w) ++ [dumps_default req])%list
    /\ replies (trace w') = (replies (trace w) ++ [frame])%list
    /\ inbox w' = rest.
Proof.
  intros Hok Hin. rewrite (main_returns g w frame rest Hok Hin).
  eexists. split; [reflexivity |].
  cbn [trace inbox]. unfold sent, replies. rewrite !flat_map_app.
  repeat split.
Qed.

Lemma completion_is_first_frame_witness :
  exists w',
    main sample_globals
         (sample_world [response 1 (JList []); response 7 (JInt 0)])
    = Returned tt w'
    /\ sent (trace w') = ([] ++ [dumps_default req])%list
    /\ replies (trace w') = ([] ++ [response 1 (JList [])])%list
    /\ inbox w' = [response 7 (JInt 0)].
Proof.
  apply (completion_is_first_frame sample_globals
           (sample_world [response 1 (JList []); response 7 (JInt 0)])
           (response 1 (JList [])) [response 7 (JInt 0)]);
    reflexivity.
Defined.

(** C2 as stated fails: when a frame with id 2 arrives before the frame
    with id 1, the call sent with id 1 completes with the id-2 frame, and
    the id-1 frame is never read. *)
Lemma other_id_settles_call :
  let w := sample_world [response 2 (JList []); response 1 (JList [])] in
  replies (trace (final (main sample_globals w))) = [response 2 (JList [])]
  /\ inbox (final (main sample_globals w)) = [response 1 (JList [])]
  /\ response 2 (JList []) <> response 1 (JList []).
Proof.
  cbv zeta. repeat split; try (vm_compute; reflexivity). discriminate.
Qed.

(** C6: the token is attached once, to the opening handshake, as the
    [Authorization: Bearer] header; nothing [main] sends afterwards carries
    it, and no second handshake follows. *)
Theorem token_attached_at_handshake_only
    (file_text : string) (now : Q) (w0 w1 w : world) (g : globals) :
  load file_text now w0 = Returned g w1 ->
  exists later,
    trace (final (main g w))
    = (trace w
       ++ Connect (WS_URL g)
            [("Authorization", ("Bearer " ++ JWT g)%string)] None
          :: later)%list
    /\ handshakes later = []
    /\ Forall (fun msg => contains (JWT g) msg = false) (sent later).
Proof.
  intros Hload. apply load_returned in Hload. destruct Hload as [Htok _].
  rewrite main_trace_final. unfold main_trace.
  eexists. split; [reflexivity |].
  destruct (accepts w (authorization g)); [| split; constructor].
  split; [now destruct (inbox w) |].
  assert (Hs : forall tl, sent tl = [] ->
            Forall (fun msg => contains (JWT g) msg = false)
              (sent (Send (dumps_default req) :: Print (Sent req) :: tl))).
  { intros tl Htl. cbn [sent flat_map app]. fold (sent tl). rewrite Htl.
    constructor; [| constructor].
    now apply (request_free_of_token (strip file_text) now). }
  apply Hs. now destruct (inbox w).
Qed.

Lemma token_attached_at_handshake_only_witness :
  exists later,
    trace (final (main sample_globals (sample_world ["ok"])))
    = ([]
       ++ Connect (WS_URL sample_globals)
            [("Authorization", ("Bearer " ++ JWT sample_globals)%string)] None
          :: later)%list
    /\ handshakes later = []
    /\ Forall (fun msg => contains (JWT sample_globals) msg = false)
         (sent later).
Proof.
  apply (token_attached_at_handshake_only "00ff" (1700000000 # 1)
           (sample_world [])
           (log (Issue (1700000000 # 1) (JWT sample_globals)) (sample_world []))
           (sample_world ["ok"]) sample_globals).
  vm_compute. reflexivity.
Defined.

(** C7, as the code has it: the token is issued once, when the module is
    loaded; [main] issues nothing, and every connection attempt it makes,
    however many, attaches that one stored token. The script itself makes a
    single attempt. *)
Theorem token_issued_once_at_load
    (file_text : string) (now : Q) (w0 w1 : world) (g : globals) :
  load file_text now w0 = Returned g w1 ->
  issued (trace w1) = (issued (trace w0) ++ [JWT g])%list
  /\ (forall n, exists new,
         trace (final (reconnect n g w1)) = (trace w1 ++ new)%list
         /\ issued new = []
         /\ Forall (eq [("Authorization", ("Bearer " ++ JWT g)%string)])
              (handshakes new))
  /\ handshakes (trace (final (script file_text now w0)))
     = (handshakes (trace w0)
        ++ [[("Authorization", ("Bearer " ++ JWT g)%string)]])%list.
Proof.
  intros Hload. split; [| split].
  - apply load_returned in Hload. destruct Hload as [_ ->].
    cbn [log trace]. now rewrite issued_app.
  - intros n. apply reconnect_trace.
  - unfold script, bind. rewrite Hload, main_trace_final, handshakes_app.
    rewrite main_trace_handshakes.
    apply load_returned in Hload. destruct Hload as [_ ->].
    cbn [log trace]. rewrite handshakes_app. cbn. now rewrite app_nil_r.
Qed.

Lemma token_issued_once_at_load_witness :
  let w0 := sample_world ["a"; "b"] in
  let w1 := log (Issue (1700000000 # 1) (JWT sample_globals)) w0 in
  let g := sample_globals in
  issued (trace w1) = (issued (trace w0) ++ [JWT g])%list
  /\ (forall n, exists new,
         trace (final (reconnect n g w1)) = (trace w1 ++ new)%list
         /\ issued new = []
         /\ Forall (eq [("Authorization", ("Bearer " ++ JWT g)%string)])
              (handshakes new))
  /\ handshakes (trace (final (script "00ff" (1700000000 # 1) w0)))
     = (handshakes (trace w0)
        ++ [[("Authorization", ("Bearer " ++ JWT g)%string)]])%list.
Proof.
  cbv zeta.
  apply (token_issued_once_at_load "00ff" (1700000000 # 1)).
  vm_compute. reflexivity.
Defined.

(** C7 as stated fails: two connection attempts in the loaded module come
    with a single issuance, and both handshakes carry the same token. *)
Lemma token_reused_across_reconnects :
  exists g w1,
    load "00ff" (1700000000 # 1) (sample_world ["a"; "b"]) = Returned g w1
    /\ issued (trace (final (reconnect 2 g w1))) = [JWT g]
    /\ handshakes (trace (final (reconnect 2 g w1)))
       = [authorization g; authorization g].
Proof.
  exists sample_globals.
  exists (log (Issue (1700000000 # 1) (JWT sample_globals))
            (sample_world ["a"; "b"])).
  repeat split; vm_compute; reflexivity.
Qed.

(** C8: [main] opens the connection with no limit on the size of incoming
    messages, and the frame the peer sends is delivered whatever its
    length. *)
Theorem no_size_ceiling
    (g : globals) (w : world) (frame : string) (rest : list string) :
  accepts w (authorization g) = true ->
  inbox w = frame :: rest ->
  exists w',
    main g w = Returned tt w'
    /\ In (Connect (WS_URL g) (authorization g) None) (trace w')
    /\ received (trace w') = (received (trace w) ++ [frame])%list
    /\ inbox w' = rest.
Proof.
  intros Hok Hin. rewrite (main_returns g w frame rest Hok Hin).
  eexists. split; [reflexivity |].
  cbn [trace inbox]. split.
  - apply in_or_app. right. left. reflexivity.
  - unfold received. rewrite !flat_map_app. split; reflexivity.
Qed.

Lemma no_size_ceiling_witness :
  let frame := string_of_list_ascii (repeat "x"%char (2 ^ 21)) in
  exists w',
    main sample_globals (sample_world [frame; "next"]) = Returned tt w'
    /\ In (Connect (WS_URL sample_globals) (authorization sample_globals) None)
         (trace w')
    /\ received (trace w') = ([] ++ [frame])%list
    /\ inbox w' = ["next"].
Proof.
  cbv zeta.
  apply (no_size_ceiling sample_globals
           (sample_world [string_of_list_ascii (repeat "x"%char (2 ^ 21));
                          "next"]));
    reflexivity.
Defined.

End Session.

(** * Further properties of the code *)

(** ** Reading the secret *)

Module HexMore.
Import Bytes BytesFacts Props StringFacts HexFacts.

(** Induction along the way [bytes.fromhex] reads its argument. *)
Lemma fromhex_chars_ind (P : list ascii -> Prop) :
  P [] ->
  (forall c rest, is_space c = true -> P rest -> P (c :: rest)) ->
  (forall c, is_space c = false -> P [c]) ->
  (forall c d rest, is_space c = false -> P rest -> P (c :: d :: rest)) ->
  forall s, P s.
Proof.
  intros Hnil Hsp Hone Hpair s.
  assert (H : forall n s, (List.length s <= n)%nat -> P s).
  { induction n as [| n IH]; intros t Hlen.
    - destruct t; [exact Hnil | simpl in Hlen; lia].
    - destruct t as [| c rest]; [exact Hnil |].
      simpl in Hlen. destruct (is_space c) eqn:Hc.
      + apply Hsp; [assumption | apply IH; lia].
      + destruct rest as [| d rest']; [now apply Hone |].
        apply Hpair; [assumption | apply IH; simpl in Hlen; lia]. }
  apply (H (List.length s)). apply Nat.le_refl.
Qed.

Lemma fromhex_chars_space c rest :
  is_space c = true -> fromhex_chars (c :: rest) = fromhex_chars rest.
Proof. intros H. cbn [fromhex_chars]. now rewrite H. Qed.

Lemma fromhex_chars_pair c d rest :
  is_space c = false ->
  fromhex_chars (c :: d :: rest)
  = match hex_digit c, hex_digit d, fromhex_chars rest with
    | Some top, Some bot, Some tl => Some (byte_of_Z (16 * top + bot) :: tl)
    | _, _, _ => None
    end.
Proof.
  intros H. cbn [fromhex_chars]. rewrite H.
  destruct (hex_digit c), (hex_digit d), (fromhex_chars rest); reflexivity.
Qed.

Lemma fromhex_chars_single c : is_space c = false -> fromhex_chars [c] = None.
Proof.
  intros H. cbn [fromhex_chars]. rewrite H. now destruct (hex_digit c).
Qed.

(** Reading a concatenation whose first part is well formed. *)
Lemma fromhex_chars_app (a b : list ascii) (ka : bytes) :
  fromhex_chars a = Some ka ->
  fromhex_chars (a ++ b)
  = match fromhex_chars b with
    | Some kb => Some (ka ++ kb)%list
    | None => None
    end.
Proof.
  revert ka. induction a as [| c rest Hc IH | c Hc | c d rest Hc IH]
    using fromhex_chars_ind; intros ka Ha.
  - injection Ha as <-. simpl. now destruct (fromhex_chars b).
  - rewrite fromhex_chars_space in Ha by assumption.
    simpl app. rewrite fromhex_chars_space by assumption. now apply IH.
  - rewrite fromhex_chars_single in Ha by assumption. discriminate.
  - rewrite fromhex_chars_pair in Ha by assumption.
    simpl app. rewrite fromhex_chars_pair by assumption.
    destruct (hex_digit c); [| discriminate].
    destruct (hex_digit d); [| discriminate].
    destruct (fromhex_chars rest) as [tl |]; [| discriminate].
    injection Ha as <-. rewrite (IH tl eq_refl).
    now destruct (fromhex_chars b).
Qed.

Lemma fromhex_chars_spaces (ws : list ascii) :
  Forall (fun c => is_space c = true) ws -> fromhex_chars ws = Some [].
Proof.
  induction 1 as [| c ws Hc _ IH]; [reflexivity |].
  now rewrite fromhex_chars_space.
Qed.

Lemma chars_append (a b : string) :
  list_ascii_of_string (a ++ b)
  = (list_ascii_of_string a ++ list_ascii_of_string b)%list.
Proof. induction a as [| c a IH]; simpl; [reflexivity | now rewrite IH]. Qed.

Lemma fromhex_append (a b : string) (ka : bytes) :
  fromhex a = Some ka ->
  fromhex (a ++ b)
  = match fromhex b with Some kb => Some (ka ++ kb)%list | None => None end.
Proof.
  unfold fromhex. rewrite chars_append. apply fromhex_chars_app.
Qed.

Lemma is_hex_digit_not_space c : is_hex_digit c = true -> is_space c = false.
Proof.
  unfold is_hex_digit. intros H. apply hex_digit_not_space.
  now destruct (hex_digit c).
Qed.

(** Digits only: the text is read in pairs. *)
Lemma fromhex_chars_digits (s : list ascii) :
  Forall (fun c => is_hex_digit c = true) s ->
  match fromhex_chars s with
  | Some key => List.length s = (2 * List.length key)%nat
  | None => Nat.odd (List.length s) = true
  end.
Proof.
  induction s as [| c rest Hc IH | c Hc | c d rest Hc IH]
    using fromhex_chars_ind; intros Hs.
  - reflexivity.
  - inversion Hs as [| ? ? Hd _]; subst.
    apply is_hex_digit_not_space in Hd. congruence.
  - rewrite fromhex_chars_single by assumption. reflexivity.
  - inversion Hs as [| ? ? Hdc Hs1]; subst.
    inversion Hs1 as [| ? ? Hdd Hs2]; subst.
    rewrite fromhex_chars_pair by assumption.
    unfold is_hex_digit in Hdc, Hdd.
    destruct (hex_digit c); [| discriminate].
    destruct (hex_digit d); [| discriminate].
    specialize (IH Hs2). destruct (fromhex_chars rest) as [tl |].
    + simpl List.length. lia.
    + change (List.length (c :: d :: rest)) with (S (S (List.length rest))).
      now rewrite Nat.odd_succ_succ.
Qed.

(** The case of the digits does not matter. *)
Lemma hex_digit_upper c : hex_digit (hex_upper_char c) = hex_digit c.
Proof. destruct c as [[] [] [] [] [] [] [] []]; reflexivity. Qed.

Lemma is_space_upper c : is_space (hex_upper_char c) = is_space c.
Proof. destruct c as [[] [] [] [] [] [] [] []]; reflexivity. Qed.

Lemma fromhex_chars_upper (s : list ascii) :
  fromhex_chars (map hex_upper_char s) = fromhex_chars s.
Proof.
  induction s as [| c rest Hc IH | c Hc | c d rest Hc IH]
    using fromhex_chars_ind.
  - reflexivity.
  - simpl map. rewrite !fromhex_chars_space; rewrite ?is_space_upper; auto.
  - simpl map. rewrite !fromhex_chars_single; rewrite ?is_space_upper; auto.
  - simpl map. rewrite !fromhex_chars_pair; rewrite ?is_space_upper; auto.
    now rewrite !hex_digit_upper, IH.
Qed.

Lemma chars_hex_upper (s : string) :
  list_ascii_of_string (hex_upper s) = map hex_upper_char (list_ascii_of_string s).
Proof. induction s as [| c s IH]; simpl; [reflexivity | now rewrite IH]. Qed.

Lemma fromhex_upper (s : string) : fromhex (hex_upper s) = fromhex s.
Proof. unfold fromhex. rewrite chars_hex_upper. apply fromhex_chars_upper. Qed.

End HexMore.

Module HmacFacts.
Import Bytes BytesFacts JwtFacts.

Lemma repeat_snoc_cons {A} (x : A) (n : nat) :
  (x :: repeat x n = repeat x n ++ [x])%list.
Proof. induction n as [| n IH]; simpl; [reflexivity | now rewrite <- IH]. Qed.

(** Zero bytes at the end of a key that fits the block are padding. *)
Lemma block_key_zero (key : bytes) :
  (List.length key < SHA256.block_size)%nat ->
  HMAC.block_key (key ++ [byte_of_Z 0]) = HMAC.block_key key.
Proof.
  unfold HMAC.block_key, SHA256.block_size. intros Hlen. cbv zeta.
  assert (H1 : (64 <? List.length (key ++ [byte_of_Z 0]))%nat = false)
    by (apply Nat.ltb_ge; rewrite length_app;
        change (List.length [byte_of_Z 0]) with 1%nat; lia).
  assert (H2 : (64 <? List.length key)%nat = false)
    by (apply Nat.ltb_ge; lia).
  rewrite H1, H2, <- app_assoc, length_app. f_equal.
  change (List.length [byte_of_Z 0]) with 1%nat.
  replace (64 - List.length key)%nat
    with (S (64 - (List.length key + 1))) by lia.
  reflexivity.
Qed.

(** A key longer than the block stands for its digest. *)
Lemma block_key_long (key : bytes) :
  (SHA256.block_size < List.length key)%nat ->
  HMAC.block_key key = HMAC.block_key (SHA256.sha256 key).
Proof.
  unfold HMAC.block_key. intros Hlen.
  apply Nat.ltb_lt in Hlen. rewrite Hlen.
  rewrite length_sha256.
  change (SHA256.block_size <? SHA256.digest_size)%nat with false.
  reflexivity.
Qed.

Lemma hmac_key_zero (key msg : bytes) :
  (List.length key < 64)%nat ->
  HMAC.hmac_sha256 (key ++ [byte_of_Z 0]) msg = HMAC.hmac_sha256 key msg.
Proof. intros H. unfold HMAC.hmac_sha256. now rewrite block_key_zero. Qed.

Lemma hmac_key_long (key msg : bytes) :
  (64 < List.length key)%nat ->
  HMAC.hmac_sha256 key msg = HMAC.hmac_sha256 (SHA256.sha256 key) msg.
Proof. intros H. unfold HMAC.hmac_sha256. now rewrite <- block_key_long. Qed.

End HmacFacts.

(** ** Whitespace and concatenation *)

Module StripFacts.
Import Bytes Script Props StringFacts HexMore.
Local Open Scope string_scope.

Lemma all_chars_cons P c s :
  all_chars P (String c s) <-> P c = true /\ all_chars P s.
Proof.
  unfold all_chars. simpl. split.
  - intros H. inversion H; subst. now split.
  - intros [Hc Hs]. now constructor.
Qed.

Lemma all_chars_append P a b :
  all_chars P a -> all_chars P b -> all_chars P (a ++ b).
Proof.
  unfold all_chars. intros Ha Hb. rewrite chars_append.
  apply Forall_app. now split.
Qed.

Lemma lstrip_spaces (pre s : string) :
  all_chars py_isspace pre -> lstrip (pre ++ s) = lstrip s.
Proof.
  induction pre as [| c pre IH]; intros H; [reflexivity |].
  apply all_chars_cons in H. destruct H as [Hc Hpre].
  simpl. rewrite Hc. now apply IH.
Qed.

Lemma lstrip_all_spaces (pre : string) :
  all_chars py_isspace pre -> lstrip pre = "".
Proof.
  induction pre as [| c pre IH]; intros H; [reflexivity |].
  apply all_chars_cons in H. destruct H as [Hc Hpre].
  simpl. rewrite Hc. now apply IH.
Qed.

Lemma rstrip_spaces (post : string) :
  all_chars py_isspace post -> rstrip post = "".
Proof.
  induction post as [| c post IH]; intros H; [reflexivity |].
  apply all_chars_cons in H. destruct H as [Hc Hpost].
  simpl. rewrite (IH Hpost). now rewrite Hc.
Qed.

Lemma rstrip_append_spaces (s post : string) :
  all_chars py_isspace post -> rstrip (s ++ post) = rstrip s.
Proof.
  intros H. induction s as [| c s IH].
  - simpl. now apply rstrip_spaces.
  - simpl. now rewrite IH.
Qed.

Lemma strip_append_spaces (s post : string) :
  all_chars py_isspace post -> rstrip (lstrip (s ++ post)) = rstrip (lstrip s).
Proof.
  intros H. induction s as [| c s IH].
  - simpl. now rewrite lstrip_all_spaces.
  - simpl. destruct (py_isspace c); [exact IH |].
    change (String c (s ++ post)) with (String c s ++ post).
    now apply rstrip_append_spaces.
Qed.

(** [strip] removes whitespace at both ends, and nothing else. *)
Lemma strip_surrounded (pre s post : string) :
  all_chars py_isspace pre -> all_chars py_isspace post ->
  strip (pre ++ s ++ post) = strip s.
Proof.
  intros Hpre Hpost. unfold strip.
  rewrite lstrip_spaces by assumption. now apply strip_append_spaces.
Qed.

End StripFacts.

Module B64More.
Import Bytes BytesFacts Base64 Base64Facts Jwt Props.
Import StringFacts JwtFacts HexMore.
Local Open Scope string_scope.

Lemma decode_app (a b : bytes) :
  decode (a ++ b)%list = decode a ++ decode b.
Proof.
  induction a as [| x a IH]; [reflexivity |].
  change (decode ((x :: a) ++ b)%list)
    with (String (ascii_of_byte x) (decode (a ++ b)%list)).
  now rewrite IH.
Qed.

Lemma unpadded_app (a b : bytes) :
  (List.length a mod 3 = 0)%nat ->
  unpadded (a ++ b)%list = (unpadded a ++ unpadded b)%list.
Proof.
  induction a as [| x | x y | x y z rest IH] using bytes_ind3; intros Hlen.
  - reflexivity.
  - discriminate Hlen.
  - discriminate Hlen.
  - change ((x :: y :: z :: rest) ++ b)%list
      with (x :: y :: z :: (rest ++ b)%list).
    rewrite !unpadded_3, <- app_assoc. f_equal. apply IH.
    change (List.length (x :: y :: z :: rest))
      with (3 + List.length rest)%nat in Hlen.
    rewrite <- (Nat.Div0.mod_add _ 1 3), Nat.add_comm. exact Hlen.
Qed.

Lemma text_token_chars (s : string) :
  is_b64url_text s -> all_chars is_token_char s.
Proof.
  unfold is_b64url_text, all_chars.
  induction s as [| c s IH]; intros H; [constructor |].
  rewrite encode_cons in H. inversion H as [| ? ? Hc Hs]; subst.
  simpl. constructor; [| now apply IH].
  unfold is_token_char. now rewrite Hc.
Qed.

End B64More.

(** ** The token issuer, continued *)

Module IssuerMore.
Import Bytes BytesFacts Base64 Base64Facts Json Jwt Script Props.
Import StringFacts JwtFacts HexFacts HexMore HmacFacts StripFacts B64More.
Local Open Scope string_scope.

Lemma make_engine_jwt_fromhex (s1 s2 : string) (now : Q) :
  fromhex s1 = fromhex s2 -> make_engine_jwt s1 now = make_engine_jwt s2 now.
Proof. unfold make_engine_jwt. now intros ->. Qed.

Lemma fromhex_leading_spaces (ws b : string) :
  all_chars is_space ws -> fromhex (ws ++ b) = fromhex b.
Proof.
  intros H. rewrite (fromhex_append ws b []).
  - now destruct (fromhex b).
  - now apply fromhex_chars_spaces.
Qed.

Lemma issued_token_chars (h p s : string) :
  is_b64url_text h -> is_b64url_text p -> is_b64url_text s ->
  all_chars is_token_char (h ++ "." ++ p ++ "." ++ s).
Proof.
  intros Hh Hp Hs.
  apply all_chars_append; [now apply text_token_chars |].
  apply all_chars_append; [repeat constructor |].
  apply all_chars_append; [now apply text_token_chars |].
  apply all_chars_append; [repeat constructor | now apply text_token_chars].
Qed.

End IssuerMore.

Section IssuerExtras.
Import Bytes BytesFacts Base64 Base64Facts Json Jwt Script Props.
Import StringFacts JwtFacts HexFacts HexMore HmacFacts StripFacts B64More.
Import IssuerMore.
Local Open Scope string_scope.

(** X1: [_b64url] of [n] bytes has [ceil (4 n / 3)] characters. *)
Theorem b64url_length (data : bytes) :
  Z.of_nat (String.length (_b64url data))
  = ((4 * Z.of_nat (List.length data) + 2) / 3)%Z.
Proof. apply length_b64url. Qed.

(** X2: [_b64url] is injective: two byte strings have the same encoding
    only when they are equal. *)
Theorem b64url_injective (a b : bytes) : _b64url a = _b64url b <-> a = b.
Proof. split; [apply b64url_inj | now intros ->]. Qed.

(** X3: after a whole number of three-byte groups the encoding of a
    concatenation is the concatenation of the encodings. *)
Theorem b64url_concat (a b : bytes) :
  (List.length a mod 3 = 0)%nat ->
  _b64url (a ++ b)%list = _b64url a ++ _b64url b.
Proof.
  intros H. rewrite !b64url_unpadded, unpadded_app by assumption.
  apply decode_app.
Qed.

Lemma b64url_concat_witness :
  _b64url ([x01; x02; x03] ++ [xff])%list
  = _b64url [x01; x02; x03] ++ _b64url [xff].
Proof. apply (b64url_concat [x01; x02; x03] [xff]). reflexivity. Defined.

(** X4: a secret written with the [0x] prefix is rejected, whatever
    follows the prefix. *)
Theorem prefixed_secret_rejected (s : string) (now : Q) :
  make_engine_jwt ("0x" ++ s) now = None.
Proof.
  unfold make_engine_jwt, fromhex.
  change (list_ascii_of_string ("0x" ++ s))
    with ("0"%char :: "x"%char :: list_ascii_of_string s).
  now rewrite fromhex_chars_pair.
Qed.

(** X5: for a secret made of hexadecimal digits only, issuance succeeds
    exactly when the number of digits is even, and the key then has half
    as many bytes. *)
Theorem digit_secret_even_length (s : string) (now : Q) :
  all_chars is_hex_digit s ->
  (make_engine_jwt s now <> None <-> Nat.even (String.length s) = true)
  /\ (forall key, fromhex s = Some key ->
                  String.length s = (2 * List.length key)%nat).
Proof.
  intros Hs. pose proof (fromhex_chars_digits _ Hs) as H.
  assert (Hl : List.length (list_ascii_of_string s) = String.length s).
  { clear. induction s as [| c s IH]; simpl; [reflexivity | now rewrite IH]. }
  rewrite Hl in H. unfold make_engine_jwt. fold (fromhex s) in H.
  destruct (fromhex s) as [key |].
  - split.
    + split; [intros _ | discriminate].
      rewrite H. rewrite Nat.even_mul. reflexivity.
    + intros key' Hk. injection Hk as <-. exact H.
  - split; [| discriminate].
    split; [intros Hn; now contradiction Hn |].
    intros He. rewrite <- Nat.negb_odd, H in He. discriminate.
Qed.

Lemma digit_secret_even_length_witness :
  (make_engine_jwt "0a1B2c" (1700000000 # 1) <> None
   <-> Nat.even (String.length "0a1B2c") = true)
  /\ (forall key, fromhex "0a1B2c" = Some key ->
                  String.length "0a1B2c" = (2 * List.length key)%nat).
Proof.
  apply (digit_secret_even_length "0a1B2c" (1700000000 # 1)).
  repeat constructor.
Defined.

(** X6: ASCII whitespace between two parts of a secret, the first of
    which ends on a byte boundary, changes nothing. *)
Theorem secret_whitespace_ignored (a ws b : string) (ka : bytes) (now : Q) :
  fromhex a = Some ka ->
  all_chars is_space ws ->
  make_engine_jwt (a ++ ws ++ b) now = make_engine_jwt (a ++ b) now.
Proof.
  intros Ha Hws. apply make_engine_jwt_fromhex.
  rewrite (fromhex_append a (ws ++ b) ka Ha), (fromhex_append a b ka Ha).
  now rewrite fromhex_leading_spaces.
Qed.

Lemma secret_whitespace_ignored_witness :
  make_engine_jwt ("00" ++ " " ++ "ff") (1700000000 # 1)
  = make_engine_jwt ("00" ++ "ff") (1700000000 # 1).
Proof.
  apply (secret_whitespace_ignored "00" " " "ff" [x00]).
  - reflexivity.
  - repeat constructor.
Defined.

(** X7: the case of the hexadecimal digits of the secret does not
    matter. *)
Theorem secret_case_ignored (s : string) (now : Q) :
  make_engine_jwt (hex_upper s) now = make_engine_jwt s now.
Proof. apply make_engine_jwt_fromhex, fromhex_upper. Qed.

(** X8: a zero byte appended to a secret of fewer than 64 bytes gives the
    same token: HMAC pads the key with zero bytes. *)
Theorem trailing_zero_byte_ignored (s : string) (key : bytes) (now : Q) :
  fromhex s = Some key ->
  (List.length key < 64)%nat ->
  make_engine_jwt (s ++ "00") now = make_engine_jwt s now.
Proof.
  intros Hs Hlen.
  assert (Hs' : fromhex (s ++ "00") = Some (key ++ [byte_of_Z 0])%list)
    by now rewrite (fromhex_append s "00" key Hs).
  rewrite (make_engine_jwt_eq _ now _ Hs), (make_engine_jwt_eq _ now _ Hs').
  unfold signature. now rewrite hmac_key_zero.
Qed.

Lemma trailing_zero_byte_ignored_witness :
  make_engine_jwt ("00ff" ++ "00") (1700000000 # 1)
  = make_engine_jwt "00ff" (1700000000 # 1).
Proof.
  apply (trailing_zero_byte_ignored "00ff" [x00; xff]).
  - reflexivity.
  - simpl. lia.
Defined.

(** X9: a secret of more than 64 bytes gives the same token as the secret
    that is its SHA-256 digest. *)
Theorem long_secret_hashed (s s' : string) (key : bytes) (now : Q) :
  fromhex s = Some key ->
  (64 < List.length key)%nat ->
  fromhex s' = Some (SHA256.sha256 key) ->
  make_engine_jwt s now = make_engine_jwt s' now.
Proof.
  intros Hs Hlen Hs'.
  rewrite (make_engine_jwt_eq _ now _ Hs), (make_engine_jwt_eq _ now _ Hs').
  unfold signature. now rewrite <- hmac_key_long.
Qed.

Lemma long_secret_hashed_witness :
  make_engine_jwt
    ("aaaaaaaaaaaaaaaaaaaaaaaaaaaaaaaaaaaaaaaaaaaaaaaaaaaaaaaaaaaaaaaa"
     ++ "aaaaaaaaaaaaaaaaaaaaaaaaaaaaaaaaaaaaaaaaaaaaaaaaaaaaaaaaaaaaaaaa"
     ++ "aa") (1700000000 # 1)
  = make_engine_jwt
      "dccc2bab3a78a627227011244bf6f6650d8ab5a3f286883ac09b9e0ba010a2a3"
      (1700000000 # 1).
Proof.
  apply (long_secret_hashed _ _ (repeat xaa 65)).
  - vm_compute. reflexivity.
  - simpl. lia.
  - vm_compute. reflexivity.
Defined.

(** X10: a token consists of characters of the URL-safe alphabet and dots
    only. *)
Theorem token_alphabet (secret_hex : string) (now : Q) (tok : string) :
  make_engine_jwt secret_hex now = Some tok ->
  all_chars is_token_char tok.
Proof.
  intros Htok. destruct (fromhex secret_hex) as [key |] eqn:Hkey.
  - rewrite (issued_eq _ _ _ _ Hkey Htok).
    apply issued_token_chars; apply b64url_text.
  - unfold make_engine_jwt in Htok. rewrite Hkey in Htok. discriminate.
Qed.

Lemma token_alphabet_witness : all_chars is_token_char (JWT sample_globals).
Proof.
  apply (token_alphabet "00ff" (1700000000 # 1)). vm_compute. reflexivity.
Defined.

(** X11: with the clock at or after the epoch, the issue time in the
    token is not after the clock reading and less than a second before
    it. *)
Theorem issue_time_not_after_clock
    (secret_hex : string) (key : bytes) (now : Q) (tok : string) :
  (0 <= now)%Q ->
  fromhex secret_hex = Some key ->
  make_engine_jwt secret_hex now = Some tok ->
  exists iat,
    payload_of tok = Some (encode (iat_json iat))
    /\ (inject_Z iat <= now)%Q /\ (now < inject_Z (iat + 1))%Q.
Proof.
  intros Hnow Hkey Htok. exists (int_of_float now).
  split; [now apply (payload_of_issued secret_hex key) |].
  rewrite int_of_float_floor by assumption.
  split; [apply Qfloor_le | apply Qlt_floor].
Qed.

Lemma issue_time_not_after_clock_witness :
  exists iat,
    payload_of sample_token_later = Some (encode (iat_json iat))
    /\ (inject_Z iat <= 17000000015 # 10)%Q
    /\ (17000000015 # 10 < inject_Z (iat + 1))%Q.
Proof.
  apply (issue_time_not_after_clock "00ff" [x00; xff]).
  - vm_compute. discriminate.
  - reflexivity.
  - vm_compute. reflexivity.
Defined.

End IssuerExtras.

(** ** The session, continued *)

Section SessionExtras.
Import Bytes Json Jwt Script Props.
Import StringFacts JwtFacts HexFacts ScriptFacts HexMore StripFacts.
Local Open Scope string_scope.

(** X12: whitespace around the secret in the file changes nothing: the
    module loads as it does from the bare secret. *)
Theorem secret_file_whitespace_ignored
    (pre s post : string) (now : Q) (w : world) :
  all_chars py_isspace pre ->
  all_chars py_isspace post ->
  load (pre ++ s ++ post) now w = load s now w.
Proof.
  intros Hpre Hpost. unfold load.
  now rewrite (strip_surrounded pre s post Hpre Hpost).
Qed.

Lemma secret_file_whitespace_ignored_witness :
  load (" " ++ "00ff" ++ String "010" "") (1700000000 # 1) (sample_world [])
  = load "00ff" (1700000000 # 1) (sample_world []).
Proof.
  apply (secret_file_whitespace_ignored " " "00ff" (String "010" ""));
    repeat constructor.
Defined.

(** X13: with a malformed secret in the file the script raises
    [ValueError] before anything reaches the network: the world is left
    as it was. *)
Theorem malformed_secret_no_connection
    (file_text : string) (now : Q) (w : world) :
  ~ well_formed_hex (strip file_text) ->
  script file_text now w = Raised ValueError w.
Proof.
  intros Hbad. unfold script, load, bind, issue.
  destruct (make_engine_jwt (strip file_text) now) as [tok |] eqn:E;
    [| reflexivity].
  exfalso. apply Hbad, fromhex_wf. unfold make_engine_jwt in E.
  destruct (fromhex (strip file_text)); [discriminate | discriminate E].
Qed.

Lemma malformed_secret_no_connection_witness :
  script "0x00ff" (1700000000 # 1) (sample_world ["ok"])
  = Raised ValueError (sample_world ["ok"]).
Proof.
  apply (malformed_secret_no_connection "0x00ff").
  intros H. apply fromhex_wf in H. now apply H.
Defined.

(** X14: when the peer rejects the handshake, [main] raises; nothing is
    sent, nothing is read, and the frames waiting stay where they are. *)
Theorem rejected_handshake_sends_nothing (g : globals) (w : world) :
  accepts w (authorization g) = false ->
  exists w',
    main g w = Raised InvalidHandshake w'
    /\ handshakes (trace w') = (handshakes (trace w) ++ [authorization g])%list
    /\ sent (trace w') = sent (trace w)
    /\ received (trace w') = received (trace w)
    /\ inbox w' = inbox w.
Proof.
  intros Hno. rewrite main_eq. cbv zeta. rewrite Hno.
  eexists. split; [reflexivity |]. cbn [log trace inbox].
  unfold handshakes, sent, received. rewrite !flat_map_app. cbn.
  rewrite !app_nil_r. repeat split.
Qed.

Lemma rejected_handshake_sends_nothing_witness :
  let w := World [] ["ok"] (fun _ => false) in
  exists w',
    main sample_globals w = Raised InvalidHandshake w'
    /\ handshakes (trace w')
       = (handshakes (trace w) ++ [authorization sample_globals])%list
    /\ sent (trace w') = sent (trace w)
    /\ received (trace w') = received (trace w)
    /\ inbox w' = inbox w.
Proof.
  cbv zeta.
  apply (rejected_handshake_sends_nothing sample_globals
           (World [] ["ok"] (fun _ => false))).
  reflexivity.
Defined.



(** X16: the script runs to its end exactly when the secret yields a
    token, the peer accepts the handshake that carries it, and at least
    one frame arrives. *)
Theorem script_returns_iff (file_text : string) (now : Q) (w : world) :
  (exists w', script file_text now w = Returned tt w')
  <-> exists tok,
        make_engine_jwt (strip file_text) now = Some tok
        /\ accepts w [("Authorization", "Bearer " ++ tok)] = true
        /\ inbox w <> [].
Proof.
  unfold script, load, bind, issue, ret.
  destruct (make_engine_jwt (strip file_text) now) as [tok |].
  - rewrite main_eq. cbv zeta. unfold authorization.
    cbn [JWT WS_URL log accepts inbox].
    destruct (accepts w [("Authorization", "Bearer " ++ tok)]) eqn:Hok.
    + destruct (inbox w) as [| frame rest] eqn:Hin.
      * split; [intros [w' H]; discriminate H |].
        intros [tok' [_ [_ H]]]. now contradiction H.
      * split; [intros _ | intros _; eexists; reflexivity].
        exists tok. repeat split; [assumption | discriminate].
    + split; [intros [w' H]; discriminate H |].
      intros [tok' [Ht [H _]]]. injection Ht as <-. congruence.
  - split; [intros [w' H]; discriminate H |].
    intros [tok' [H _]]. discriminate H.
Qed.

(** X17: the bearer token the script presents verifies under the secret
    found in the file and carries the clock reading of the moment the
    module was loaded. *)
Theorem script_token_verifies
    (file_text : string) (key : bytes) (now : Q) (w : world) :
  fromhex (strip file_text) = Some key ->
  exists tok,
    handshakes (trace (final (script file_text now w)))
    = (handshakes (trace w)
       ++ [[("Authorization", ("Bearer " ++ tok)%string)]])%list
    /\ verify key tok = true
    /\ payload_of tok = Some (encode (iat_json (int_of_float now))).
Proof.
  intros Hkey.
  pose proof (make_engine_jwt_eq _ now _ Hkey) as Htok.
  set (tok := header ++ "." ++ payload now ++ "."
              ++ signature key (encode (header ++ "." ++ payload now))) in *.
  exists tok. split; [| split].
  - unfold script, load, bind, issue, ret. rewrite Htok.
    rewrite main_trace_final, handshakes_app, main_trace_handshakes.
    cbn [log trace]. rewrite handshakes_app.
    change (handshakes [Issue now tok]) with (@nil headers).
    now rewrite app_nil_r.
  - now apply (verify_issued (strip file_text) key now).
  - now apply (payload_of_issued (strip file_text) key now).
Qed.

Lemma script_token_verifies_witness :
  exists tok,
    handshakes
      (trace (final (script "00ff" (1700000000 # 1) (sample_world []))))
    = (handshakes (trace (sample_world []))
       ++ [[("Authorization", ("Bearer " ++ tok)%string)]])%list
    /\ verify [x00; xff] tok = true
    /\ payload_of tok
       = Some (encode (iat_json (int_of_float (1700000000 # 1)))).
Proof.
  apply (script_token_verifies "00ff" [x00; xff]). reflexivity.
Defined.


End SessionExtras.
